(** * Phantom-token plugin: a shallow embedding of [plugin/main.go]

    The development follows the layout of the Go file: the TTL cache, the
    utilities (environment parsing, key derivation, bearer extraction,
    expiry extraction), the two hooks with the dispatcher, and the
    introspection client.  Library calls of the Go standard library that
    the plugin relies on ([time], [strconv], [regexp], [strings],
    [encoding/base64], [encoding/json], [crypto/sha256]) are modelled in
    modules of their own, ahead of the code that uses them.

    Conventions.
    - Go strings are byte strings: [string] is used as a list of bytes.
    - Go [int]/[int64] values are [Z]; where the source can overflow, the
      wrap-around is written out ([wrap64]).
    - A Go map that may be nil is an [option (gmap string _)]: reading a
      nil map is fine, writing to it is a run-time panic.
    - Locks are not modelled: every operation is taken as the atomic
      critical section the mutex makes of it. *)

From Stdlib Require Import ZArith Ascii String List Lia Bool.
From Stdlib Require Import Floats.SpecFloat.
From stdpp Require Import base option list strings gmap fin_maps pretty.

Local Open Scope Z_scope.

Set Warnings "-register-all".

(* ===================================================================== *)
(** * Part I. Definitions                                                 *)
(* ===================================================================== *)

(** ** Machine integers *)

Definition minInt64 : Z := - 2 ^ 63.
Definition maxInt64 : Z := 2 ^ 63 - 1.

(** Two's-complement wrap-around of a 64-bit signed result. *)
Definition wrap64 (z : Z) : Z := (z + 2 ^ 63) mod 2 ^ 64 - 2 ^ 63.

(** ** Package [time]

    A [time.Time] is an instant, counted in nanoseconds since the Unix
    epoch on one time line; a [time.Duration] is an [int64] count of
    nanoseconds.  The wall/monotonic split of [time.Time] is abstracted:
    readings of [time.Now] and instants built by [time.Unix] are compared
    on the same line.  A [time.Time] keeps its seconds, counted from
    January 1 of year 1, in an [int64]; [Unix] is where the program can
    leave that range, and wraps around as the addition in [time.Unix]
    does. *)
Module GoTime.

Definition Instant := Z.
Definition Duration := Z.

Definition Nanosecond : Duration := 1.
Definition Second : Duration := 1000000000.
Definition Minute : Duration := 60 * Second.

(** [t.After(u)], [t.Before(u)] *)
Definition After (t u : Instant) : bool := u <? t.
Definition Before (t u : Instant) : bool := t <? u.

(** [t.Add(d)].  The program adds margins to readings of the clock and
    to results of [Unix]; the saturation of [Time.Add] at the two ends
    of the range of a [time.Time], some 292 billion years from the
    epoch, is left out. *)
Definition Add (t : Instant) (d : Duration) : Instant := t + d.

(** [t.Sub(u)]: the difference, saturated to the range of [Duration]. *)
Definition Sub (t u : Instant) : Duration :=
  if t - u <? minInt64 then minInt64
  else if maxInt64 <? t - u then maxInt64
  else t - u.

(** The seconds from January 1 of year 1 to the Unix epoch
    ([unixToInternal] of package [time]). *)
Definition unixToInternal : Z := 62135596800.

(** [time.Unix(sec, 0)]: the instant whose seconds from year 1 are
    [sec + unixToInternal], an [int64] sum.  For [sec] above
    [maxInt64 - unixToInternal] the sum wraps around, and the instant
    lies some 292 billion years in the past. *)
Definition Unix (sec : Z) : Instant :=
  (wrap64 (sec + unixToInternal) - unixToInternal) * Second.

(** The zero value [time.Time{}]: January 1 of year 1, 00:00 UTC. *)
Definition zero : Instant := Unix (- unixToInternal).

End GoTime.

Import GoTime.

(** ** The cache (main.go, lines 54-152) *)

Record cacheEntry := CacheEntry {
  JWT : string;
  Expires : Instant
}.

(** The order in which a [range] statement visits a map is unspecified in
    Go.  A [MapOrder] picks one order per map; the functions that range
    over the cache take the order of each of their loops as an argument,
    and every property proved of them holds for all orders. *)
Record MapOrder := {
  range_of :> gmap string cacheEntry → list (string * cacheEntry);
  range_of_perm : ∀ m, range_of m ≡ₚ map_to_list m
}.

(** The order stdpp itself lists a map in. *)
Definition listing_order : MapOrder :=
  {| range_of := map_to_list; range_of_perm := λ _, reflexivity _ |}.

Module jwtCache.
Section WithConfig.

(** [clockSkew] and [cacheMax] are package variables, set once at start
    (lines 44 and 46). *)
Variable clockSkew : Duration.
Variable cacheMax : Z.

(** [jwtCache.get] at clock reading [now]: the looked-up value, the
    found flag and the map afterwards. *)
Definition get (now : Instant) (key : string) (data : gmap string cacheEntry)
  : (string * bool) * gmap string cacheEntry :=
  match data !! key with
  | None => ((EmptyString, false), data)
  | Some ce =>
      if After now (Expires ce)
      then ((EmptyString, false), delete key data)
      else ((JWT ce, true), data)
  end.

(** [jwtCache.set] at clock reading [now]. *)
Definition set (now : Instant) (key jwt : string) (exp : Instant)
    (data : gmap string cacheEntry) : gmap string cacheEntry :=
  if Before (Add now clockSkew) exp
  then <[key := CacheEntry jwt exp]> data
  else data.

(** Body of the loop of [jwtCache.purgeExpired] over the visited
    entries. *)
Fixpoint purge_loop (now : Instant) (items : list (string * cacheEntry))
    (data : gmap string cacheEntry) : gmap string cacheEntry :=
  match items with
  | [] => data
  | (k, v) :: rest =>
      if After now (Expires v)
      then purge_loop now rest (delete k data)
      else purge_loop now rest data
  end.

(** [jwtCache.purgeExpired] at clock reading [now]. *)
Definition purgeExpired (ord : MapOrder) (now : Instant)
    (data : gmap string cacheEntry) : gmap string cacheEntry :=
  purge_loop now (ord data) data.

(** First loop of [jwtCache.enforceCap] (lines 135-143), over the
    snapshot [items]; the state is the map and the [dropped] counter. *)
Fixpoint drop_nearly_dead (now : Instant) (toDrop : Z)
    (items : list (string * Instant))
    (data : gmap string cacheEntry) (dropped : Z)
  : gmap string cacheEntry * Z :=
  match items with
  | [] => (data, dropped)
  | (key, exp) :: rest =>
      if toDrop <=? dropped then (data, dropped)
      else if negb (After exp now) || (Sub exp now <? 2 * Minute)
      then drop_nearly_dead now toDrop rest (delete key data) (dropped + 1)
      else drop_nearly_dead now toDrop rest data dropped
  end.

(** Second loop of [jwtCache.enforceCap] (lines 144-150), over the keys
    the [range] visits. *)
Fixpoint drop_any (toDrop : Z) (keys : list string)
    (data : gmap string cacheEntry) (dropped : Z)
  : gmap string cacheEntry * Z :=
  match keys with
  | [] => (data, dropped)
  | k :: rest =>
      if toDrop <=? dropped then (data, dropped)
      else drop_any toDrop rest (delete k data) (dropped + 1)
  end.

(** [jwtCache.enforceCap]; [now] is the clock reading of line 133,
    [ord1] and [ord2] the orders of the two [range] statements. *)
Definition enforceCap (ord1 ord2 : MapOrder) (now : Instant)
    (data : gmap string cacheEntry) : gmap string cacheEntry :=
  if cacheMax <=? 0 then data
  else
    let n := Z.of_nat (size data) in
    if n <=? cacheMax then data
    else
      let toDrop := n - cacheMax in
      let items := (λ kv, (kv.1, Expires kv.2)) <$> ord1 data in
      let '(data1, dropped) := drop_nearly_dead now toDrop items data 0 in
      fst (drop_any toDrop ((ord2 data1).*1) data1 dropped).

(** One round of the janitor goroutine (lines 70-73): the expired sweep
    at reading [now1], then capacity enforcement at reading [now2]. *)
Definition janitor_pass (ord0 ord1 ord2 : MapOrder) (now1 now2 : Instant)
    (data : gmap string cacheEntry) : gmap string cacheEntry :=
  enforceCap ord1 ord2 now2 (purgeExpired ord0 now1 data).

End WithConfig.
End jwtCache.

(** ** Package [strconv] *)
Module strconv.

Definition digit_of (c : ascii) : option Z :=
  let n := Z.of_N (N_of_ascii c) in
  if (48 <=? n) && (n <=? 57) then Some (n - 48) else None.

Fixpoint digits_value (s : string) (acc : Z) : option Z :=
  match s with
  | EmptyString => Some acc
  | String c rest =>
      match digit_of c with
      | Some d => digits_value rest (acc * 10 + d)
      | None => None
      end
  end.

(** [strconv.Atoi] on a 64-bit platform: an optional sign, then one or
    more decimal digits and nothing else; [None] stands for a non-nil
    error (a syntax error, or a range error when the value does not fit
    an [int]). *)
Definition Atoi (s : string) : option Z :=
  let '(neg, ds) :=
    match s with
    | String "-"%char rest => (true, rest)
    | String "+"%char rest => (false, rest)
    | _ => (false, s)
    end in
  match ds with
  | EmptyString => None
  | _ =>
      match digits_value ds 0 with
      | None => None
      | Some v =>
          let n := if neg then - v else v in
          if (minInt64 <=? n) && (n <=? maxInt64) then Some n else None
      end
  end.

End strconv.

(** ** Environment utilities (main.go, lines 157-191) *)
Section Environment.

(** The process environment; [os.Getenv] yields the empty string for a
    variable that is not set. *)
Variable environ : gmap string string.

Definition Getenv (name : string) : string :=
  default EmptyString (environ !! name).

Definition is_empty (s : string) : bool :=
  match s with EmptyString => true | _ => false end.

(** [durationFromEnvSeconds]; the product with [time.Second] is an
    [int64] product. *)
Definition durationFromEnvSeconds (name : string) (def : Z) : Duration :=
  let v := Getenv name in
  if is_empty v then wrap64 (def * Second)
  else
    match strconv.Atoi v with
    | None => wrap64 (def * Second)
    | Some i => if i <? 0 then wrap64 (def * Second) else wrap64 (i * Second)
    end.

(** [intFromEnv] *)
Definition intFromEnv (name : string) (def : Z) : Z :=
  let v := Getenv name in
  if is_empty v then def
  else
    match strconv.Atoi v with
    | None => def
    | Some i => if i <? 0 then def else i
    end.

(** The package variables of lines 44-46. *)
Definition clockSkew : Duration := durationFromEnvSeconds "CLOCK_SKEW_SECONDS" 30.
Definition janitorEvery : Duration := durationFromEnvSeconds "CACHE_JANITOR_SECONDS" 60.
Definition cacheMax : Z := intFromEnv "CACHE_MAX_ENTRIES" 10000.

End Environment.

(** ** Package [strings] *)
Module GoStrings.

Definition byte (n : N) : ascii := ascii_of_N n.

Definition of_bytes (l : list N) : string :=
  fold_right (λ n s, String (byte n) s) EmptyString l.

(** The UTF-8 encodings of the runes [unicode.IsSpace] accepts: the
    ASCII ones, U+0085, U+00A0, U+1680, U+2000..U+200A, U+2028, U+2029,
    U+202F, U+205F and U+3000.  Each is the only byte sequence that
    [utf8.DecodeRuneInString] and [utf8.DecodeLastRuneInString] decode
    to its rune, none starts with a continuation byte, and none is a
    prefix of another: a string starts (ends) with a white-space rune
    exactly when it starts (ends) with one of these byte sequences. *)
Definition space_encodings : list string :=
  of_bytes <$>
    [ [9]; [10]; [11]; [12]; [13]; [32];
      [194; 133]; [194; 160]; [225; 154; 128];
      [226; 128; 128]; [226; 128; 129]; [226; 128; 130]; [226; 128; 131];
      [226; 128; 132]; [226; 128; 133]; [226; 128; 134]; [226; 128; 135];
      [226; 128; 136]; [226; 128; 137]; [226; 128; 138];
      [226; 128; 168]; [226; 128; 169]; [226; 128; 175];
      [226; 129; 159]; [227; 128; 128] ]%N.

(** [strip_prefix p s] is the rest of [s] after its prefix [p]. *)
Fixpoint strip_prefix (p s : string) : option string :=
  match p, s with
  | EmptyString, _ => Some s
  | String a p', String b s' =>
      if Ascii.eqb a b then strip_prefix p' s' else None
  | String _ _, EmptyString => None
  end.

Fixpoint strip_first (ps : list string) (s : string) : option string :=
  match ps with
  | [] => None
  | p :: ps' =>
      match strip_prefix p s with
      | Some r => Some r
      | None => strip_first ps' s
      end
  end.

(** Remove leading white-space runes; the fuel bounds the number of
    runes removed and [String.length s] is always enough. *)
Fixpoint trim_left_fuel (fuel : nat) (encs : list string) (s : string) : string :=
  match fuel with
  | O => s
  | S fuel' =>
      match strip_first encs s with
      | Some r => trim_left_fuel fuel' encs r
      | None => s
      end
  end.

Definition TrimLeftSpace (s : string) : string :=
  trim_left_fuel (String.length s) space_encodings s.

Definition TrimRightSpace (s : string) : string :=
  String.rev
    (trim_left_fuel (String.length s) (String.rev <$> space_encodings)
       (String.rev s)).

(** [strings.TrimSpace] *)
Definition TrimSpace (s : string) : string :=
  TrimRightSpace (TrimLeftSpace s).

(** [strings.Split(s, sep)] for a one-byte separator: the pieces
    between the separators, one more than there are separators. *)
Fixpoint split_go (sep : ascii) (s : string) (cur : string) : list string :=
  match s with
  | EmptyString => [String.rev cur]
  | String c rest =>
      if Ascii.eqb c sep
      then String.rev cur :: split_go sep rest EmptyString
      else split_go sep rest (String c cur)
  end.

Definition Split (s : string) (sep : ascii) : list string :=
  split_go sep s EmptyString.

End GoStrings.

(** ** Package [regexp]

    A pattern is the flat program the pattern compiles to: anchors,
    literals, greedy repetitions of a byte class, and the open/close marks
    of the capturing group.  Matching is leftmost-first with greedy
    repetitions tried longest first, the semantics of Go's [regexp].
    The subject is matched byte by byte; for the pattern of this
    program, whose literals and classes are decided on ASCII bytes, this
    selects the same substrings as matching rune by rune. *)
Module regexp.

Inductive inst :=
| Begin                          (* ^ *)
| End_                           (* $ *)
| Lit (fold : bool) (c : ascii)  (* one byte, case-folded under (?i) *)
| Star (cls : ascii → bool)      (* cls*, greedy *)
| Plus (cls : ascii → bool)      (* cls+, greedy *)
| Open                           (* ( *)
| Close.                         (* ) *)

(** [\s] is [[\t\n\f\r ]]. *)
Definition perl_space (c : ascii) : bool :=
  let n := N_of_ascii c in
  ((n =? 9) || (n =? 10) || (n =? 12) || (n =? 13) || (n =? 32))%N.

(** [.] is every byte but the line feed. *)
Definition any_but_newline (c : ascii) : bool :=
  negb (N_of_ascii c =? 10)%N.

Definition lower (c : ascii) : ascii :=
  let n := N_of_ascii c in
  if ((65 <=? n) && (n <=? 90))%N then ascii_of_N (n + 32) else c.

Definition lit_matches (fold : bool) (c b : ascii) : bool :=
  if fold then Ascii.eqb (lower c) (lower b) else Ascii.eqb c b.

(** The substring of [from] that ends where [to] begins, [to] being a
    suffix of [from]. *)
Definition between (from to : string) : string :=
  String.substring 0 (String.length from - String.length to) from.

(** Greedy repetition: take bytes of the class as long as possible and
    give them back one by one while the continuation fails. *)
Fixpoint star_loop {R} (cls : ascii → bool) (k : string → nat → option R)
    (s : string) (pos : nat) : option R :=
  match s with
  | String c rest =>
      if cls c then
        match star_loop cls k rest (S pos) with
        | Some r => Some r
        | None => k s pos
        end
      else k s pos
  | EmptyString => k s pos
  end.

(** Run a program on the subject [s] at byte offset [pos].  [opened] is
    the subject at the open mark of the group, [caps] the captures
    closed so far (last first).  The result is the rest of the subject
    after the match and the captures. *)
Fixpoint run (prog : list inst) (s : string) (pos : nat)
    (opened : string) (caps : list string) : option (string * list string) :=
  match prog with
  | [] => Some (s, caps)
  | i :: prog' =>
      match i with
      | Begin =>
          match pos with
          | O => run prog' s pos opened caps
          | S _ => None
          end
      | End_ =>
          match s with
          | EmptyString => run prog' s pos opened caps
          | String _ _ => None
          end
      | Lit fold c =>
          match s with
          | String b rest =>
              if lit_matches fold c b
              then run prog' rest (S pos) opened caps
              else None
          | EmptyString => None
          end
      | Star cls =>
          star_loop cls (λ s' pos', run prog' s' pos' opened caps) s pos
      | Plus cls =>
          match s with
          | String b rest =>
              if cls b
              then star_loop cls (λ s' pos', run prog' s' pos' opened caps)
                     rest (S pos)
              else None
          | EmptyString => None
          end
      | Open => run prog' s pos s caps
      | Close => run prog' s pos opened (between opened s :: caps)
      end
  end.

(** Try the offsets from left to right; [s] is the subject from offset
    [pos] on. *)
Fixpoint search (prog : list inst) (s : string) (pos : nat)
  : option (list string) :=
  match run prog s pos s [] with
  | Some (rest, caps) => Some (between s rest :: rev caps)
  | None =>
      match s with
      | EmptyString => None
      | String _ s' => search prog s' (S pos)
      end
  end.

(** [re.FindStringSubmatch(s)]: the whole match followed by the
    captures, or the nil slice. *)
Definition FindStringSubmatch (prog : list inst) (s : string) : list string :=
  default [] (search prog s 0).

Definition literal (fold : bool) (s : string) : list inst :=
  Lit fold <$> list_ascii_of_string s.

End regexp.

(** ** Bearer extraction (main.go, lines 41 and 198-207) *)

(** The pattern [(?i)^\s*Bearer\s+(.+)\s*$]. *)
Definition bearerRe : list regexp.inst :=
  [regexp.Begin; regexp.Star regexp.perl_space]
  ++ regexp.literal true "Bearer"
  ++ [regexp.Plus regexp.perl_space;
      regexp.Open; regexp.Plus regexp.any_but_newline; regexp.Close;
      regexp.Star regexp.perl_space; regexp.End_].

Definition extractBearer (h : string) : string :=
  if is_empty h then EmptyString
  else
    let m := regexp.FindStringSubmatch bearerRe h in
    if negb (length m =? 2)%nat then EmptyString
    else GoStrings.TrimSpace (nth 1 m EmptyString).

(** [countDots] (lines 388-396).  The loop ranges over runes; the byte
    [.] only occurs in a string as the rune [.], so counting bytes counts
    the same. *)
Fixpoint countDots (s : string) : Z :=
  match s with
  | EmptyString => 0
  | String c rest => if Ascii.eqb c "."%char then 1 + countDots rest else countDots rest
  end.

(** ** Package [crypto/sha256] and key derivation (main.go, lines 193-196) *)
Module sha256.

Definition w32 (z : Z) : Z := z mod 2 ^ 32.
Definition add32 (a b : Z) : Z := w32 (a + b).
Definition rotr (n x : Z) : Z := Z.lor (Z.shiftr x n) (w32 (Z.shiftl x (32 - n))).
Definition not32 (x : Z) : Z := 2 ^ 32 - 1 - x.

Definition Ch (x y z : Z) : Z := Z.lxor (Z.land x y) (Z.land (not32 x) z).
Definition Maj (x y z : Z) : Z :=
  Z.lxor (Z.lxor (Z.land x y) (Z.land x z)) (Z.land y z).
Definition Sigma0 (x : Z) : Z := Z.lxor (Z.lxor (rotr 2 x) (rotr 13 x)) (rotr 22 x).
Definition Sigma1 (x : Z) : Z := Z.lxor (Z.lxor (rotr 6 x) (rotr 11 x)) (rotr 25 x).
Definition sigma0 (x : Z) : Z := Z.lxor (Z.lxor (rotr 7 x) (rotr 18 x)) (Z.shiftr x 3).
Definition sigma1 (x : Z) : Z := Z.lxor (Z.lxor (rotr 17 x) (rotr 19 x)) (Z.shiftr x 10).

(** The constants are given by their definition in the standard: the
    round constants are the first 32 bits of the fractional parts of the
    cube roots of the first 64 primes, the initial hash value those of
    the square roots of the first 8 primes. *)
Definition is_prime (n : nat) : bool :=
  forallb (λ d, negb (n mod d =? 0)%nat) (seq 2 (n - 2)).

Definition primes (count : nat) : list Z :=
  Z.of_nat <$> take count (filter (λ n, is_prime n = true) (seq 2 310)).

(** The largest [r] below [2 ^ bits] with [r ^ 3 <= n], found bit by
    bit from the top. *)
Fixpoint cube_root (bits : nat) (n r : Z) : Z :=
  match bits with
  | O => r
  | S b =>
      let r' := r + 2 ^ Z.of_nat b in
      cube_root b n (if r' * r' * r' <=? n then r' else r)
  end.

Definition K : list Z :=
  (λ p, w32 (cube_root 36 (p * 2 ^ 96) 0)) <$> primes 64.

Definition H0 : list Z :=
  (λ p, w32 (Z.sqrt (p * 2 ^ 64))) <$> primes 8.

(** The message followed by the bit 1, zero bytes up to 56 modulo 64,
    and the bit length as a 64-bit big-endian integer. *)
Definition be_bytes (n : nat) (z : Z) : list Z :=
  (λ i, Z.shiftr z (8 * Z.of_nat (n - 1 - i)) mod 256) <$> seq 0 n.

Definition pad (msg : list Z) : list Z :=
  let len := Z.of_nat (length msg) in
  let zeros := Z.to_nat ((55 - len) mod 64) in
  msg ++ [128] ++ replicate zeros 0 ++ be_bytes 8 ((8 * len) mod 2 ^ 64).

Fixpoint be_words (bs : list Z) : list Z :=
  match bs with
  | a :: b :: c :: d :: rest =>
      (a * 2 ^ 24 + b * 2 ^ 16 + c * 2 ^ 8 + d) :: be_words rest
  | _ => []
  end.

(** The message schedule: [w] holds the words so far, latest first. *)
Fixpoint schedule (n : nat) (w : list Z) : list Z :=
  match n with
  | O => w
  | S n' =>
      let at_ i := nth i w 0 in
      schedule n'
        (add32 (add32 (sigma1 (at_ 1%nat)) (at_ 6%nat))
               (add32 (sigma0 (at_ 14%nat)) (at_ 15%nat)) :: w)
  end.

Definition round (st : list Z) (kw : Z * Z) : list Z :=
  match st with
  | [a; b; c; d; e; f; g; h] =>
      let t1 := add32 (add32 (add32 h (Sigma1 e)) (add32 (Ch e f g) kw.1)) kw.2 in
      let t2 := add32 (Sigma0 a) (Maj a b c) in
      [add32 t1 t2; a; b; c; add32 d t1; e; f; g]
  | _ => st
  end.

Definition compress (h : list Z) (block : list Z) : list Z :=
  let w := rev (schedule 48 (rev (be_words block))) in
  zip_with add32 h (fold_left round (zip K w) h).

Fixpoint blocks (n : nat) (bs : list Z) (h : list Z) : list Z :=
  match n with
  | O => h
  | S n' => blocks n' (drop 64 bs) (compress h (take 64 bs))
  end.

(** [sha256.Sum256]: the 32 bytes of the digest. *)
Definition Sum256 (msg : string) : list Z :=
  let bs := pad ((λ c, Z.of_N (N_of_ascii c)) <$> list_ascii_of_string msg) in
  blocks (length bs / 64) bs H0 ≫= be_bytes 4.

Definition hex_digit (z : Z) : ascii :=
  if z <? 10 then ascii_of_N (Z.to_N (48 + z)) else ascii_of_N (Z.to_N (87 + z)).

(** [fmt.Sprintf("%x", bytes)]: two lower-case hexadecimal digits per
    byte. *)
Fixpoint hex (bs : list Z) : string :=
  match bs with
  | [] => EmptyString
  | b :: rest => String (hex_digit (b / 16)) (String (hex_digit (b mod 16)) (hex rest))
  end.

End sha256.

Definition sha256Hex (s : string) : string := sha256.hex (sha256.Sum256 s).

(** ** Package [encoding/base64] *)
Module base64.

(** The URL-safe alphabet: [A-Z], [a-z], [0-9], [-] and [_]. *)
Definition sextet (c : ascii) : option Z :=
  let n := Z.of_N (N_of_ascii c) in
  if (65 <=? n) && (n <=? 90) then Some (n - 65)
  else if (97 <=? n) && (n <=? 122) then Some (n - 71)
  else if (48 <=? n) && (n <=? 57) then Some (n + 4)
  else if n =? 45 then Some 62
  else if n =? 95 then Some 63
  else None.

Definition is_newline (c : ascii) : bool :=
  let n := N_of_ascii c in ((n =? 10) || (n =? 13))%N.

Definition chr (z : Z) : ascii := ascii_of_N (Z.to_N (z mod 256)).

(** Groups of four sextets give three bytes; a last group of two gives
    one byte and one of three gives two, the spare low bits being
    dropped (the encoding is not strict); a last group of one is
    corrupt. *)
Fixpoint quanta (l : list Z) : option string :=
  match l with
  | [] => Some EmptyString
  | [_] => None
  | [a; b] => Some (String (chr (a * 4 + b / 16)) EmptyString)
  | [a; b; c] =>
      Some (String (chr (a * 4 + b / 16))
             (String (chr (b * 16 + c / 4)) EmptyString))
  | a :: b :: c :: d :: rest =>
      match quanta rest with
      | Some s =>
          Some (String (chr (a * 4 + b / 16))
                 (String (chr (b * 16 + c / 4))
                   (String (chr (c * 64 + d)) s)))
      | None => None
      end
  end.

(** [base64.RawURLEncoding.DecodeString]: carriage returns and line
    feeds are skipped, any other byte outside the alphabet (the padding
    character included) is corrupt input; [None] is a non-nil error. *)
Definition RawURLEncoding_DecodeString (s : string) : option string :=
  mapM sextet (filter (λ c, is_newline c = false) (list_ascii_of_string s))
    ≫= quanta.

End base64.

(** ** [float64] and the conversions the program applies to it *)
Module float64.

(** IEEE 754 binary64 values, in the representation of the standard
    library's specification of floating-point arithmetic. *)
Definition t := spec_float.
Definition prec : Z := 53.
Definition emax : Z := 1024.

Definition zero : t := S754_zero false.

(** The binary64 value nearest to [(-1)^neg * m * 10^e] (ties to even),
    for [m >= 0]: the rounding [strconv.ParseFloat] performs. *)
Definition of_decimal (neg : bool) (m e : Z) : t :=
  match m with
  | Zpos p =>
      if 0 <=? e
      then binary_round prec emax neg (Z.to_pos (m * 10 ^ e)) 0
      else
        let '(q, e', l) := SFdiv_core_binary prec emax m 0 (10 ^ (- e)) 0 in
        binary_round_aux prec emax neg q e' l
  | _ => S754_zero neg
  end.

(** The Go conversion [int64(f)]: the fraction is discarded.  The
    result for a value outside [int64] (or not a number) is left to the
    implementation by the language; it is the one of amd64 here. *)
Definition to_int64 (f : t) : Z :=
  match f with
  | S754_zero _ => 0
  | S754_finite s m e =>
      let mag := if 0 <=? e then Z.shiftl (Zpos m) e else Z.shiftr (Zpos m) (- e) in
      let v := if s then - mag else mag in
      if (minInt64 <=? v) && (v <=? maxInt64) then v else minInt64
  | _ => minInt64
  end.

End float64.

(** ** Package [encoding/json], decoding into [map[string]any] *)
Module json.

(** The dynamic types a decoded [any] can have.  [Number] is
    [json.Number], which a decoder only produces after [UseNumber]. *)
Inductive any :=
| Nil
| Bool (b : bool)
| Float64 (f : float64.t)
| Str (s : string)
| Number (literal : string)
| Slice (elems : list any)
| Object (fields : list (string * any)).

Definition code (c : ascii) : Z := Z.of_N (N_of_ascii c).
Definition chr (z : Z) : ascii := ascii_of_N (Z.to_N z).

Definition is_ws (c : ascii) : bool :=
  let n := code c in (n =? 32) || (n =? 9) || (n =? 13) || (n =? 10).

Fixpoint skip_ws (s : string) : string :=
  match s with
  | String c rest => if is_ws c then skip_ws rest else s
  | EmptyString => s
  end.

(** *** Strings *)

Definition hex_value (c : ascii) : option Z :=
  let n := code c in
  if (48 <=? n) && (n <=? 57) then Some (n - 48)
  else if (97 <=? n) && (n <=? 102) then Some (n - 87)
  else if (65 <=? n) && (n <=? 70) then Some (n - 55)
  else None.

(** [getu4] on the four digits after [\u]. *)
Definition hex4 (a b c d : ascii) : option Z :=
  match hex_value a, hex_value b, hex_value c, hex_value d with
  | Some x, Some y, Some z, Some w => Some (((x * 16 + y) * 16 + z) * 16 + w)
  | _, _, _, _ => None
  end.

(** [utf8.EncodeRune] of a rune that is not a surrogate. *)
Definition encode_rune (r : Z) : list ascii :=
  if r <? 128 then [chr r]
  else if r <? 2048 then [chr (192 + r / 64); chr (128 + r mod 64)]
  else if r <? 65536 then
    [chr (224 + r / 4096); chr (128 + r / 64 mod 64); chr (128 + r mod 64)]
  else
    [chr (240 + r / 262144); chr (128 + r / 4096 mod 64);
     chr (128 + r / 64 mod 64); chr (128 + r mod 64)].

Definition replacement : list ascii := encode_rune 65533.

Definition in_range (lo hi : Z) (c : ascii) : bool :=
  (lo <=? code c) && (code c <=? hi).

(** One byte in [lo..hi] at the head of the text, if there is a text. *)
Definition expect (lo hi : Z) (o : option string) : option string :=
  match o with
  | Some (String c r) => if in_range lo hi c then Some r else None
  | _ => None
  end.

Definition sized (k : nat) (o : option string) : option nat :=
  match o with Some _ => Some k | None => None end.

(** The number of continuation bytes of the well-formed UTF-8 sequence
    whose first byte [c0] is not ASCII and which [rest] continues;
    [None] when [utf8.DecodeRune] reports an encoding error there. *)
Definition rune_tail (c0 : ascii) (rest : string) : option nat :=
  let n := code c0 in
  let cont := expect 128 191 in
  if (194 <=? n) && (n <=? 223) then sized 1 (cont (Some rest))
  else if n =? 224 then sized 2 (cont (expect 160 191 (Some rest)))
  else if n =? 237 then sized 2 (cont (expect 128 159 (Some rest)))
  else if (225 <=? n) && (n <=? 239) then sized 2 (cont (cont (Some rest)))
  else if n =? 240 then sized 3 (cont (cont (expect 144 191 (Some rest))))
  else if (241 <=? n) && (n <=? 243) then sized 3 (cont (cont (cont (Some rest))))
  else if n =? 244 then sized 3 (cont (cont (expect 128 143 (Some rest))))
  else None.

(** A low surrogate escape [\uDC00..\uDFFF] at the head of [s]. *)
Definition low_surrogate (s : string) : option (Z * string) :=
  match s with
  | String b (String u (String a1 (String a2 (String a3 (String a4 rest))))) =>
      if (code b =? 92) && (code u =? 117) then
        match hex4 a1 a2 a3 a4 with
        | Some r2 => if (56320 <=? r2) && (r2 <? 57344) then Some (r2, rest) else None
        | None => None
        end
      else None
  | _ => None
  end.

Definition simple_escape (c : ascii) : option ascii :=
  let n := code c in
  if (n =? 34) || (n =? 92) || (n =? 47) then Some c
  else if n =? 98 then Some (chr 8)
  else if n =? 102 then Some (chr 12)
  else if n =? 110 then Some (chr 10)
  else if n =? 114 then Some (chr 13)
  else if n =? 116 then Some (chr 9)
  else None.

(** The body of a string literal, after its opening quote: the decoded
    bytes (last first in [acc]) and the text after the closing quote.
    [pending] counts the continuation bytes still to copy of a
    well-formed multi-byte rune.  Ill-formed UTF-8 and unpaired
    surrogate escapes decode to U+FFFD. *)
Fixpoint string_body (s : string) (pending : nat) (acc : list ascii)
  : option (string * string) :=
  match s with
  | EmptyString => None
  | String c rest =>
      match pending with
      | S p => string_body rest p (c :: acc)
      | O =>
          let n := code c in
          if n =? 34 then Some (string_of_list_ascii (rev acc), rest)
          else if n <? 32 then None
          else if n =? 92 then
            match rest with
            | String e rest1 =>
                if code e =? 117 then
                  match rest1 with
                  | String a1 (String a2 (String a3 (String a4 rest2))) =>
                      match hex4 a1 a2 a3 a4 with
                      | None => None
                      | Some r1 =>
                          if (55296 <=? r1) && (r1 <? 57344) then
                            match low_surrogate rest2 with
                            | Some (r2, _) =>
                                if r1 <? 56320 then
                                  match rest2 with
                                  | String _ (String _ (String _ (String _ (String _ (String _ rest3))))) =>
                                      string_body rest3 O
                                        (rev (encode_rune
                                                ((r1 - 55296) * 1024 + (r2 - 56320) + 65536))
                                         ++ acc)
                                  | _ => None
                                  end
                                else string_body rest2 O (rev replacement ++ acc)
                            | None => string_body rest2 O (rev replacement ++ acc)
                            end
                          else string_body rest2 O (rev (encode_rune r1) ++ acc)
                      end
                  | _ => None
                  end
                else
                  match simple_escape e with
                  | Some b => string_body rest1 O (b :: acc)
                  | None => None
                  end
            | EmptyString => None
            end
          else if n <? 128 then string_body rest O (c :: acc)
          else
            match rune_tail c rest with
            | Some k => string_body rest k (c :: acc)
            | None => string_body rest O (rev replacement ++ acc)
            end
      end
  end.

(** *** Numbers *)

Definition digit_of (c : ascii) : option Z :=
  if in_range 48 57 c then Some (code c - 48) else None.

(** A run of digits: the value accumulated on [acc], the number of
    digits read, and the rest. *)
Fixpoint digits (s : string) (acc : Z) (cnt : Z) : Z * Z * string :=
  match s with
  | String c rest =>
      match digit_of c with
      | Some d => digits rest (acc * 10 + d) (cnt + 1)
      | None => (acc, cnt, s)
      end
  | EmptyString => (acc, cnt, s)
  end.

(** The digits of an exponent, as [strconv] reads them: they stop
    counting once the exponent has reached 10000. *)
Fixpoint exp_digits (s : string) (e : Z) (cnt : Z) : Z * Z * string :=
  match s with
  | String c rest =>
      match digit_of c with
      | Some d => exp_digits rest (if e <? 10000 then e * 10 + d else e) (cnt + 1)
      | None => (e, cnt, s)
      end
  | EmptyString => (e, cnt, s)
  end.

(** The rest of [s] after its first byte, when that byte is [n]. *)
Definition head_is (n : Z) (s : string) : option string :=
  match s with
  | String c rest => if code c =? n then Some rest else None
  | EmptyString => None
  end.

(** A number literal at the head of [s]: an optional minus sign; a
    zero, or a digit from 1 to 9 and then any digits; optionally a
    point and one or more digits; optionally [e] or [E], an optional
    sign and one or more digits.  The result is the sign, the digits of
    the mantissa read as an integer, the decimal exponent, and the
    rest. *)
Definition number_literal (s : string) : option (bool * Z * Z * string) :=
  let '(neg, s1) :=
    match head_is 45 s with
    | Some r => (true, r)
    | None => (false, s)
    end in
  '(m, s2) ←
    match head_is 48 s1 with
    | Some r => Some (0, r)
    | None => let '(m, cnt, r) := digits s1 0 0 in
              if cnt =? 0 then None else Some (m, r)
    end;
  '(m, fcnt, s3) ←
    match head_is 46 s2 with
    | Some r =>
        let '(m', cnt, r') := digits r m 0 in
        if cnt =? 0 then None else Some (m', cnt, r')
    | None => Some (m, 0, s2)
    end;
  '(e, s4) ←
    match s3 with
    | String c r =>
        if (code c =? 101) || (code c =? 69) then
          let '(esign, r1) :=
            match r with
            | String c' r' =>
                if code c' =? 45 then (-1, r')
                else if code c' =? 43 then (1, r')
                else (1, r)
            | EmptyString => (1, r)
            end in
          let '(e, cnt, r2) := exp_digits r1 0 0 in
          if cnt =? 0 then None else Some (esign * e, r2)
        else Some (0, s3)
    | EmptyString => Some (0, s3)
    end;
  Some (neg, m, e - fcnt, s4).

(** [convertNumber]: the literal as a [float64]; a literal that
    overflows [float64] is an error. *)
Definition number (s : string) : option (any * string) :=
  '(neg, m, e, rest) ← number_literal s;
  match float64.of_decimal neg m e with
  | S754_infinity _ | S754_nan => None
  | f => Some (Float64 f, rest)
  end.

(** *** Values *)

Definition maxNestingDepth : Z := 10000.

Definition keyword (w : string) (v : any) (s : string) : option (any * string) :=
  r ← GoStrings.strip_prefix w s; Some (v, r).

(** One value at the head of [s], after optional white space, and the
    rest of the text.  [depth] is the number of arrays and objects
    open around it.  Every call takes one unit of [fuel]; a text of [n]
    bytes needs no more than [2 * n + 2] units. *)
Fixpoint value (fuel : nat) (depth : Z) (s : string) : option (any * string) :=
  match fuel with
  | O => None
  | S fuel' =>
      match skip_ws s with
      | EmptyString => None
      | String c rest =>
          let n := code c in
          if n =? 123 then
            if maxNestingDepth <? depth + 1 then None
            else
              match head_is 125 (skip_ws rest) with
              | Some rest' => Some (Object [], rest')
              | None => members fuel' (depth + 1) rest []
              end
          else if n =? 91 then
            if maxNestingDepth <? depth + 1 then None
            else
              match head_is 93 (skip_ws rest) with
              | Some rest' => Some (Slice [], rest')
              | None => elements fuel' (depth + 1) rest []
              end
          else if n =? 34 then
            '(str, rest') ← string_body rest O []; Some (Str str, rest')
          else if n =? 116 then keyword "rue" (Bool true) rest
          else if n =? 102 then keyword "alse" (Bool false) rest
          else if n =? 110 then keyword "ull" Nil rest
          else number (String c rest)
      end
  end
with members (fuel : nat) (depth : Z) (s : string) (acc : list (string * any))
  : option (any * string) :=
  match fuel with
  | O => None
  | S fuel' =>
      match head_is 34 (skip_ws s) with
      | Some rest =>
          '(key, s1) ← string_body rest O [];
          match head_is 58 (skip_ws s1) with
          | Some s2 =>
              '(v, s3) ← value fuel' depth s2;
              match skip_ws s3 with
              | String c s4 =>
                  if code c =? 44 then members fuel' depth s4 ((key, v) :: acc)
                  else if code c =? 125 then Some (Object (rev ((key, v) :: acc)), s4)
                  else None
              | EmptyString => None
              end
          | None => None
          end
      | None => None
      end
  end
with elements (fuel : nat) (depth : Z) (s : string) (acc : list any)
  : option (any * string) :=
  match fuel with
  | O => None
  | S fuel' =>
      '(v, s1) ← value fuel' depth s;
      match skip_ws s1 with
      | String c s2 =>
          if code c =? 44 then elements fuel' depth s2 (v :: acc)
          else if code c =? 93 then Some (Slice (rev (v :: acc)), s2)
          else None
      | EmptyString => None
      end
  end.

(** A whole JSON text: one value with white space around it. *)
Definition parse (data : string) : option any :=
  '(v, rest) ← value (2 * String.length data + 2) 0 data;
  match skip_ws rest with
  | EmptyString => Some v
  | String _ _ => None
  end.

(** Whether a value has the dynamic type [json.Number]. *)
Definition is_Number (v : any) : bool :=
  match v with Number _ => true | _ => false end.

(** [json.Unmarshal(data, &claims)] for [var claims map[string]any]:
    [None] is a non-nil error (a syntax error, a number out of range,
    or a value that is neither an object nor [null]).  [null] leaves
    the nil map; of two fields with one name the later one stays. *)
Definition Unmarshal (data : string) : option (gmap string any) :=
  match parse data with
  | Some (Object fields) => Some (list_to_map (rev fields))
  | Some Nil => Some ∅
  | _ => None
  end.

End json.

(** ** Expiry extraction (main.go, lines 209-238) *)

(** The errors [parseJWTExp] builds with [fmt.Errorf], by the constant
    part of their text. *)
Inductive expError :=
| NotCompactJWS        (* "not a compact JWS" *)
| PayloadB64Decode     (* "payload b64 decode: ..." *)
| PayloadJSON          (* "payload json: ..." *)
| NoExpClaim           (* "no exp claim" *)
| ExpTypeUnsupported.  (* "exp type unsupported" *)

(** [json.Number.Int64] is [strconv.ParseInt(s, 10, 64)], which reads what
    [strconv.Atoi] reads on a 64-bit platform. *)
Definition Number_Int64 (literal : string) : option Z := strconv.Atoi literal.

Definition parseJWTExp (jwt : string) : Instant * option expError :=
  let parts := GoStrings.Split jwt "."%char in
  if negb (length parts =? 3)%nat then (GoTime.zero, Some NotCompactJWS)
  else
    match base64.RawURLEncoding_DecodeString (nth 1 parts EmptyString) with
    | None => (GoTime.zero, Some PayloadB64Decode)
    | Some payloadB =>
        match json.Unmarshal payloadB with
        | None => (GoTime.zero, Some PayloadJSON)
        | Some claims =>
            match claims !! "exp" with
            | None => (GoTime.zero, Some NoExpClaim)
            | Some expVal =>
                match expVal with
                | json.Float64 t => (Unix (float64.to_int64 t), None)
                | json.Number t =>
                    let expUnix :=
                      match Number_Int64 t with
                      | Some v => v
                      | None => 0
                      end in
                    (Unix expUnix, None)
                | _ => (GoTime.zero, Some ExpTypeUnsupported)
                end
            end
        end
    end.

(** ** The records of the gateway *)

(** Modelled from the spec: the package [internal/coprocess], generated
    from the gateway's protocol files, is not part of the sources.  The
    records below have the fields the plugin reads or writes, with the
    types the plugin uses them at: the object with its hook name,
    request, session and metadata; the request with its inbound headers,
    the headers to set and the override record; the override record; the
    session state.  A pointer that may be nil is an [option], and so is a
    map that may be nil. *)
Module coprocess.

Record ReturnOverrides := {
  ResponseCode : Z;
  ResponseError : string;
  ReturnOverrides_Headers : option (gmap string string);
  OverrideError : bool;
  ResponseBody : string
}.

Record MiniRequestObject := {
  Headers : option (gmap string string);
  SetHeaders : option (gmap string string);
  ReturnOverrides_ : option ReturnOverrides
}.

Record SessionState := {
  Rate : float64.t;
  Per : float64.t;
  QuotaMax : Z;
  QuotaRemaining : Z;
  QuotaRenewalRate : Z;
  LastUpdated : string;
  IdExtractorDeadline : Z
}.

Record Object := {
  HookName : string;
  Request : option MiniRequestObject;
  Session : option SessionState;
  Metadata : option (gmap string string)
}.

(** The zero values [&MiniRequestObject{}], [&ReturnOverrides{}]. *)
Definition MiniRequestObject_zero : MiniRequestObject :=
  {| Headers := None; SetHeaders := None; ReturnOverrides_ := None |}.

Definition ReturnOverrides_zero : ReturnOverrides :=
  {| ResponseCode := 0; ResponseError := EmptyString;
     ReturnOverrides_Headers := None; OverrideError := false;
     ResponseBody := EmptyString |}.

(** The generated getters are nil-safe: [obj.GetRequest().GetHeaders()]. *)
Definition GetRequest_GetHeaders (obj : Object) : option (gmap string string) :=
  Request obj ≫= Headers.

End coprocess.

Import coprocess.

(** Reading a map, nil or not: the zero value when the key is absent. *)
Definition index (m : option (gmap string string)) (k : string) : string :=
  match m with
  | Some m' => default EmptyString (m' !! k)
  | None => EmptyString
  end.

(** ** The exchange with the introspection endpoint *)

(** What [io.ReadAll] gets from a response body: the bytes delivered, and
    the error that ended the reading if it was not the end of the body. *)
Record Response := {
  StatusCode : Z;
  Body : string;
  BodyErr : option string
}.

(** The outcome of the request of one call of [introspectForJWTAndExp]:
    [http.NewRequest] fails, [httpClient.Do] fails (transport, timeout),
    or a response arrives.  Errors carry their text. *)
Inductive exchange :=
| NewRequestFailed (err : string)
| DoFailed (err : string)
| Responded (resp : Response).

(** ** The state the hooks run in *)

(** The package-level cache [cStore] and the number of readings of the
    clock taken so far. *)
Record World := {
  cStore : gmap string cacheEntry;
  clockReads : nat
}.

Inductive result (A : Type) :=
| Returned (a : A) (w : World)
| Panicked (reason : string).

Arguments Returned {A} a w.
Arguments Panicked {A} reason.

(** Computations on the world that return or panic. *)
Definition M (A : Type) : Type := World → result A.

Definition ret {A} (a : A) : M A := λ w, Returned a w.

Definition bind {A B} (m : M A) (k : A → M B) : M B :=
  λ w, match m w with
       | Returned a w' => k a w'
       | Panicked r => Panicked r
       end.

Definition panic {A} (reason : string) : M A := λ _, Panicked reason.

Notation "'let*' x := m 'in' k" := (bind m (λ x, k))
  (at level 10, x name, m at level 100, k at level 200, only parsing).


(** The double-quote character, as a string. *)
Definition quote : string := String (ascii_of_N 34) EmptyString.

Definition nilDereference : string :=
  "invalid memory address or nil pointer dereference".

Section Plugin.

(** The process environment the package variables are read from. *)
Variable environ : gmap string string.

(** The readings of the clock, in the order [time.Now] is called. *)
Variable clock : nat → Instant.

(** The outcome of the exchange for an opaque token. *)
Variable roundTrip : string → exchange.

(** [time.Now()] *)
Definition timeNow : M Instant :=
  λ w, Returned (clock (clockReads w))
         {| cStore := cStore w; clockReads := S (clockReads w) |}.

(** [cStore.get(key)] and [cStore.set(key, jwt, exp)]: the methods of
    the cache, each at a reading of the clock of its own. *)
Definition cStore_get (key : string) : M (string * bool) :=
  let* now := timeNow in
  λ w, let '(r, data) := jwtCache.get now key (cStore w) in
       Returned r {| cStore := data; clockReads := clockReads w |}.

Definition cStore_set (key jwt : string) (exp : Instant) : M unit :=
  let* now := timeNow in
  λ w, Returned tt
         {| cStore := jwtCache.set (clockSkew environ) now key jwt exp (cStore w);
            clockReads := clockReads w |}.

(** *** Helpers (main.go, lines 369-418) *)

Definition ensureMetadata (obj : Object) : Object :=
  match Metadata obj with
  | None =>
      {| HookName := HookName obj; Request := Request obj;
         Session := Session obj; Metadata := Some ∅ |}
  | Some _ => obj
  end.

Definition ensureSession (obj : Object) : Object :=
  {| HookName := HookName obj; Request := Request obj;
     Session := Some {| Rate := float64.zero; Per := float64.zero;
                        QuotaMax := -1; QuotaRemaining := -1;
                        QuotaRenewalRate := 0; LastUpdated := EmptyString;
                        IdExtractorDeadline := 0 |};
     Metadata := Metadata obj |}.

(** [obj.Metadata[k] = v]; an assignment to an entry of a nil map
    panics. *)
Definition setMetadata (obj : Object) (k v : string) : M Object :=
  match Metadata obj with
  | None => panic "assignment to entry in nil map"
  | Some m =>
      ret {| HookName := HookName obj; Request := Request obj;
             Session := Session obj; Metadata := Some (<[k := v]> m) |}
  end.

(** The value of the [WWW-Authenticate] header: the word Bearer, and
    the parameter error with the quoted value invalid_token. *)
Definition challenge : string :=
  "Bearer error=" +:+ quote +:+ "invalid_token" +:+ quote.

Definition unauthorized (obj : Object) (msg : string) : Object :=
  let req := default MiniRequestObject_zero (Request obj) in
  let ro := default ReturnOverrides_zero (ReturnOverrides_ req) in
  let headers := default ∅ (ReturnOverrides_Headers ro) in
  {| HookName := HookName obj;
     Request :=
       Some {| Headers := Headers req;
               SetHeaders := SetHeaders req;
               ReturnOverrides_ :=
                 Some {| ResponseCode := 401;
                         ResponseError := msg;
                         ResponseBody := msg;
                         ReturnOverrides_Headers :=
                           Some (<["WWW-Authenticate" := challenge]> headers);
                         OverrideError := true |} |};
     Session := Session obj;
     Metadata := Metadata obj |}.

(** *** Introspection (main.go, lines 330-366) *)

(** The result is the triple of the source: the JWT, its expiry and the
    error, given by its text. *)
Definition introspectForJWTAndExp (opaque : string)
  : M (string * Instant * option string) :=
  match roundTrip opaque with
  | NewRequestFailed err => ret (EmptyString, GoTime.zero, Some err)
  | DoFailed err => ret (EmptyString, GoTime.zero, Some err)
  | Responded resp =>
      if negb (StatusCode resp =? 200) then
        let b := String.substring 0 512 (Body resp) in
        ret (EmptyString, GoTime.zero,
             Some ("introspection status " +:+ pretty (StatusCode resp)
                   +:+ ": " +:+ GoStrings.TrimSpace b))
      else
        match BodyErr resp with
        | Some err => ret (EmptyString, GoTime.zero, Some err)
        | None =>
            let j := GoStrings.TrimSpace (Body resp) in
            if negb (countDots j =? 2) then ret (EmptyString, GoTime.zero, None)
            else
              match parseJWTExp j with
              | (_, Some _) =>
                  let* now := timeNow in
                  ret (j, Add now (30 * Second), None)
              | (exp, None) => ret (j, exp, None)
              end
        end
  end.

(** *** Hook 1: auth check (main.go, lines 278-310) *)

(** The lines both accepting paths end with: the metadata and the
    session of an accepted request. *)
Definition accept (obj : Object) (jwt opaque : string)
  : M (Object * option string) :=
  let* obj1 := setMetadata (ensureMetadata obj) "phantom_jwt" jwt in
  let* obj2 := setMetadata obj1 "token" opaque in
  ret (ensureSession obj2, None).

Definition phantomAuthCheck (obj : Object) : M (Object * option string) :=
  let auth := index (GetRequest_GetHeaders obj) "Authorization" in
  let opaque := extractBearer auth in
  if is_empty opaque then ret (unauthorized obj "Missing bearer token", None)
  else
    let key := sha256Hex opaque in
    let* hit := cStore_get key in
    if hit.2 then accept obj hit.1 opaque
    else
      let* r := introspectForJWTAndExp opaque in
      let '(jwt, exp, err) := r in
      match err with
      | Some e => ret (unauthorized obj ("Introspection error: " +:+ e), None)
      | None =>
          if is_empty jwt then ret (unauthorized obj "Token inactive or invalid", None)
          else
            let storeUntil := Add exp (wrap64 (- clockSkew environ)) in
            let* _ := cStore_set key jwt storeUntil in
            accept obj jwt opaque
      end.

(** *** Hook 2: post key auth (main.go, lines 313-326) *)

Definition injectJwtPostKeyAuth (obj : Object) : M (Object * option string) :=
  let jwt :=
    match Metadata obj with
    | Some m => default EmptyString (m !! "phantom_jwt")
    | None => EmptyString
    end in
  if is_empty jwt then ret (unauthorized obj "JWT missing post-auth", None)
  else
    match Request obj with
    | None => panic nilDereference
    | Some req =>
        let setHeaders := default ∅ (SetHeaders req) in
        ret ({| HookName := HookName obj;
                Request :=
                  Some {| Headers := Headers req;
                          SetHeaders :=
                            Some (<["Authorization" := "Bearer " +:+ jwt]> setHeaders);
                          ReturnOverrides_ := ReturnOverrides_ req |};
                Session := Session obj;
                Metadata := Metadata obj |}, None)
    end.

(** *** The dispatcher (main.go, lines 266-275) *)

Definition Dispatch (obj : Object) : M (Object * option string) :=
  if decide (HookName obj = "PhantomAuthCheck") then phantomAuthCheck obj
  else if decide (HookName obj = "InjectJwtPostKeyAuth") then injectJwtPostKeyAuth obj
  else ret (obj, None).

End Plugin.

(** ** Predicates and sample inputs of the statements *)

(** A cache of [n] entries that are far from their expiry, under the
    keys [0], [1], ... written in decimal. *)
Definition filled (n : nat) : gmap string cacheEntry :=
  list_to_map ((λ i : nat, (pretty i, CacheEntry "J" (1800000000 * Second))) <$> seq 0 n).

(** A token whose payload is the record with the one field [exp], a
    string of digits. *)
Definition token_exp_string : string :=
  "eyJhbGciOiJIUzI1NiJ9.eyJleHAiOiIxNzAwMDAwMDAwIn0.c2ln".

Definition payload_exp_string : string :=
  "{" +:+ quote +:+ "exp" +:+ quote +:+ ":"
  +:+ quote +:+ "1700000000" +:+ quote +:+ "}".

(** What a short-circuit of the request with reason [msg] looks like on
    the returned object. *)
Definition short_circuit (msg : string) (o : Object) : Prop :=
  ∃ req ro headers,
    Request o = Some req
    ∧ ReturnOverrides_ req = Some ro
    ∧ ResponseCode ro = 401
    ∧ ReturnOverrides_Headers ro = Some headers
    ∧ headers !! "WWW-Authenticate" = Some challenge
    ∧ ResponseError ro = msg
    ∧ ResponseBody ro = msg.

(** The auth check lets the request go on: it returns the object with
    a JWT and the presented credential in the metadata and the session
    of [ensureSession]. *)
Definition auth_check_accepts (obj o : Object) : Prop :=
  ∃ jwt,
    o = {| HookName := HookName obj;
           Request := Request obj;
           Session := Some {| Rate := float64.zero; Per := float64.zero;
                              QuotaMax := -1; QuotaRemaining := -1;
                              QuotaRenewalRate := 0; LastUpdated := EmptyString;
                              IdExtractorDeadline := 0 |};
           Metadata :=
             Some (<["token" := extractBearer
                                  (index (GetRequest_GetHeaders obj) "Authorization")]>
                     (<["phantom_jwt" := jwt]> (default ∅ (Metadata obj)))) |}.

(** The inject hook lets the request go on: it returns the object with
    the outbound [Authorization] header set from the JWT of the
    metadata. *)
Definition inject_forwards (obj o : Object) : Prop :=
  ∃ req,
    Request obj = Some req
    ∧ o = {| HookName := HookName obj;
             Request :=
               Some {| Headers := Headers req;
                       SetHeaders :=
                         Some (<["Authorization" :=
                                   "Bearer " +:+ index (Metadata obj) "phantom_jwt"]>
                                 (default ∅ (SetHeaders req)));
                       ReturnOverrides_ := ReturnOverrides_ req |};
             Session := Session obj;
             Metadata := Metadata obj |}.

(** The reasons the two hooks reject with. *)
Definition rejection_reason (msg : string) : Prop :=
  msg = "Missing bearer token"
  ∨ (∃ e, msg = "Introspection error: " +:+ e)
  ∨ msg = "Token inactive or invalid"
  ∨ msg = "JWT missing post-auth".

(** The object an accepted auth check returns. *)
Definition accepted (obj : Object) (jwt opaque : string) : Object :=
  {| HookName := HookName obj;
     Request := Request obj;
     Session := Some {| Rate := float64.zero; Per := float64.zero;
                        QuotaMax := -1; QuotaRemaining := -1;
                        QuotaRenewalRate := 0; LastUpdated := EmptyString;
                        IdExtractorDeadline := 0 |};
     Metadata := Some (<["token" := opaque]>
                         (<["phantom_jwt" := jwt]> (default ∅ (Metadata obj)))) |}.

(** An object the gateway can send: the post-key-auth hook, a metadata
    map that holds a JWT, and no request record. *)
Definition object_without_request : Object :=
  {| HookName := "InjectJwtPostKeyAuth";
     Request := None;
     Session := None;
     Metadata := Some {[ "phantom_jwt" := "eyJhbGciOiJIUzI1NiJ9.eyJleHAiOjE3MDAwMDAwMDB9.c2ln" ]} |}.

Definition object_other_hook : Object :=
  {| HookName := "MyPreHook";
     Request := Some {| Headers := Some {[ "Authorization" := "Bearer OPAQUE1" ]};
                        SetHeaders := None; ReturnOverrides_ := None |};
     Session := None;
     Metadata := None |}.

Definition world_empty : World := {| cStore := ∅; clockReads := 0 |}.

(** A response whose body has three segments and an empty record as
    payload: no expiry to extract. *)
Definition response_no_exp : Response :=
  {| StatusCode := 200; Body := "eyJhbGciOiJIUzI1NiJ9.e30.c2ln"; BodyErr := None |}.

Definition object_auth_check : Object :=
  {| HookName := "PhantomAuthCheck";
     Request := Some {| Headers := Some {[ "Authorization" := "Bearer OPAQUE1" ]};
                        SetHeaders := None; ReturnOverrides_ := None |};
     Session := None;
     Metadata := None |}.

(** What the extractor answers for a token with the payload [p]. *)
Definition exp_of (p : string) : Instant * option expError :=
  parseJWTExp ("h." +:+ p +:+ ".s").

(** A token that expires at 1700000120, the response that carries it,
    and the world after a first request with the token [OPAQUE1], read on
    a clock that starts at 1700000000 and ticks once a reading. *)
Definition token_exp_120 : string :=
  "eyJhbGciOiJIUzI1NiJ9.eyJleHAiOjE3MDAwMDAxMjB9.c2ln".

Definition response_token : Response :=
  {| StatusCode := 200; Body := token_exp_120; BodyErr := None |}.

Definition clock_1700000000 (n : nat) : Instant :=
  1700000000 * Second + Z.of_nat n.

Definition world_cached : World :=
  {| cStore := {[ sha256Hex "OPAQUE1" := CacheEntry token_exp_120 (1700000090 * Second) ]};
     clockReads := 2 |}.

(** ** Histories of the cache *)

(** The operations that reach the map of the cache, each with the clock
    reading it takes (and, for the loops, the orders of its ranges). *)
Inductive cacheOp :=
| OpGet (now : Instant) (key : string)
| OpSet (now : Instant) (key jwt : string) (exp : Instant)
| OpPurgeExpired (ord : MapOrder) (now : Instant)
| OpEnforceCap (ord1 ord2 : MapOrder) (now : Instant).

Definition apply_op (skew : Duration) (capacity : Z) (op : cacheOp)
    (data : gmap string cacheEntry) : gmap string cacheEntry :=
  match op with
  | OpGet now key => (jwtCache.get now key data).2
  | OpSet now key jwt exp => jwtCache.set skew now key jwt exp data
  | OpPurgeExpired ord now => jwtCache.purgeExpired ord now data
  | OpEnforceCap ord1 ord2 now => jwtCache.enforceCap capacity ord1 ord2 now data
  end.

(** The map after a history, from the empty map of [newJWTCache]
    (line 66). *)
Definition history (skew : Duration) (capacity : Z) (ops : list cacheOp)
  : gmap string cacheEntry :=
  fold_left (λ data op, apply_op skew capacity op data) ops ∅.

(** The test of line 139: the entry has expired, or expires within two
    minutes. *)
Definition nearly_dead (now exp : Instant) : bool :=
  negb (After exp now) || (Sub exp now <? 2 * Minute).

(** A byte of a token: visible ASCII. *)
Definition visible (c : ascii) : bool :=
  let n := N_of_ascii c in ((33 <=? n) && (n <=? 126))%N.

(** Space or tab. *)
Definition blank (c : ascii) : bool :=
  let n := N_of_ascii c in ((n =? 32) || (n =? 9))%N.

Definition all_bytes (p : ascii → bool) (s : string) : bool :=
  forallb p (list_ascii_of_string s).

(** The number of entries of a map that are nearly dead at [now]. *)
Definition dead_count (now : Instant) (data : gmap string cacheEntry) : nat :=
  length (filter (λ kv : string * cacheEntry, nearly_dead now (Expires kv.2) = true)
            (map_to_list data)).

(** A lower-case hexadecimal digit. *)
Definition is_lower_hex (c : ascii) : bool :=
  let n := N_of_ascii c in
  (((48 <=? n) && (n <=? 57)) || ((97 <=? n) && (n <=? 102)))%N.

(** The session of an accepted request: no rate, no quota. *)
Definition session_unlimited : SessionState :=
  {| Rate := float64.zero; Per := float64.zero;
     QuotaMax := -1; QuotaRemaining := -1;
     QuotaRenewalRate := 0; LastUpdated := EmptyString;
     IdExtractorDeadline := 0 |}.

(** The headers of the override record of an object, if it has one. *)
Definition override_headers (o : Object) : option (gmap string string) :=
  match Request o with
  | Some req =>
      match ReturnOverrides_ req with
      | Some ro => ReturnOverrides_Headers ro
      | None => None
      end
  | None => None
  end.

(** The headers the request of an object is to be sent on with. *)
Definition outbound_headers (o : Object) : option (gmap string string) :=
  match Request o with
  | Some req => SetHeaders req
  | None => None
  end.

(** Equal up to the case of ASCII letters, as [(?i)] compares. *)
Fixpoint same_fold (a b : string) : bool :=
  match a, b with
  | EmptyString, EmptyString => true
  | String x a', String y b' => regexp.lit_matches true x y && same_fold a' b'
  | _, _ => false
  end.

(** [s] starts with [w], up to the case of ASCII letters. *)
Fixpoint starts_with_fold (w s : string) : bool :=
  match w, s with
  | EmptyString, _ => true
  | String x w', String y s' => regexp.lit_matches true x y && starts_with_fold w' s'
  | String _ _, EmptyString => false
  end.

(** The snapshot the first loop of [enforceCap] takes of an entry. *)
Definition expiry_of (kv : string * cacheEntry) : string * Instant :=
  (kv.1, Expires kv.2).

(** Objects for the hooks: one with metadata of its own, one with a
    header already set for the upstream. *)
Definition object_with_metadata : Object :=
  {| HookName := "PhantomAuthCheck";
     Request := Some {| Headers := Some {[ "Authorization" := "Bearer OPAQUE1" ]};
                        SetHeaders := None; ReturnOverrides_ := None |};
     Session := None;
     Metadata := Some {[ "trace" := "abc" ]} |}.

Definition object_for_inject : Object :=
  {| HookName := "InjectJwtPostKeyAuth";
     Request := Some {| Headers := Some {[ "Authorization" := "Bearer OPAQUE1" ]};
                        SetHeaders := Some {[ "Authorization" := "Basic dTpw" ]};
                        ReturnOverrides_ := None |};
     Session := None;
     Metadata := Some {[ "phantom_jwt" := token_exp_120 ]} |}.

(* ===================================================================== *)
(** * Part II. Properties                                                 *)
(* ===================================================================== *)

(** ** The cache *)

Section CacheFacts.

Implicit Types (data : gmap string cacheEntry) (now exp : Instant).

Lemma Before_spec (t u : Instant) : Before t u = true ↔ t < u.
Proof. unfold Before. apply Z.ltb_lt. Qed.

Lemma After_spec (t u : Instant) : After t u = true ↔ u < t.
Proof. unfold After. apply Z.ltb_lt. Qed.

(** [set] stores exactly when the expiry lies beyond now plus the
    margin. *)
Lemma set_stores skew now key jwt exp data :
  now + skew < exp →
  jwtCache.set skew now key jwt exp data = <[key := CacheEntry jwt exp]> data.
Proof.
  intros H. unfold jwtCache.set, Add.
  destruct (Before (now + skew) exp) eqn:E; [done|].
  apply Before_spec in H. congruence.
Qed.

Lemma set_skips skew now key jwt exp data :
  exp ≤ now + skew →
  jwtCache.set skew now key jwt exp data = data.
Proof.
  intros H. unfold jwtCache.set, Add.
  destruct (Before (now + skew) exp) eqn:E; [|done].
  apply Before_spec in E. lia.
Qed.

(** A stored entry is served up to and including its expiry. *)
Lemma get_found now key data jwt exp :
  data !! key = Some (CacheEntry jwt exp) → now ≤ exp →
  jwtCache.get now key data = ((jwt, true), data).
Proof.
  intros Hk Hle. unfold jwtCache.get. rewrite Hk. simpl.
  destruct (After now exp) eqn:E; [|done].
  apply After_spec in E. lia.
Qed.

Lemma get_expired now key data jwt exp :
  data !! key = Some (CacheEntry jwt exp) → exp < now →
  jwtCache.get now key data = ((EmptyString, false), delete key data).
Proof.
  intros Hk Hlt. unfold jwtCache.get. rewrite Hk. simpl.
  destruct (After now exp) eqn:E; [done|].
  apply After_spec in Hlt. congruence.
Qed.

Lemma get_absent now key data :
  data !! key = None →
  jwtCache.get now key data = ((EmptyString, false), data).
Proof. intros Hk. unfold jwtCache.get. by rewrite Hk. Qed.

(** After a miss the key is not in the map, whatever it held before. *)
Lemma get_miss_lookup now key data r data' :
  jwtCache.get now key data = (r, data') → r.2 = false →
  data' !! key = None.
Proof.
  unfold jwtCache.get. destruct (data !! key) as [ce|] eqn:Hk.
  - destruct (After now (Expires ce)); intros [= <- <-]; simpl.
    + intros _. apply lookup_delete_eq.
    + discriminate.
  - intros [= <- <-] _. done.
Qed.

(** *** The expired sweep only removes *)

Lemma purge_loop_size now items data :
  (size (jwtCache.purge_loop now items data) ≤ size data)%nat.
Proof.
  revert data. induction items as [|[k v] items IH]; intros data; simpl.
  - lia.
  - destruct (After now (Expires v)).
    + etrans; [apply IH|]. apply map_subseteq_size, delete_subseteq.
    + apply IH.
Qed.

Lemma purgeExpired_size ord now data :
  (size (jwtCache.purgeExpired ord now data) ≤ size data)%nat.
Proof. apply purge_loop_size. Qed.

Lemma purge_loop_subseteq now items data :
  jwtCache.purge_loop now items data ⊆ data.
Proof.
  revert data. induction items as [|[k v] items IH]; intros data; simpl.
  - done.
  - destruct (After now (Expires v)).
    + etrans; [apply IH|]. apply delete_subseteq.
    + apply IH.
Qed.

Lemma purge_loop_removes now items data k v :
  (k, v) ∈ items → After now (Expires v) = true →
  jwtCache.purge_loop now items data !! k = None.
Proof.
  revert data. induction items as [|[k' v'] items IH]; intros data Hin Hexp; simpl.
  - by apply elem_of_nil in Hin.
  - apply elem_of_cons in Hin as [[= <- <-]|Hin].
    + rewrite Hexp.
      eapply lookup_weaken_None; [apply lookup_delete_eq | apply purge_loop_subseteq].
    + destruct (After now (Expires v')); by apply IH.
Qed.

Lemma purge_loop_keeps now items data k :
  (∀ v, (k, v) ∈ items → After now (Expires v) = false) →
  jwtCache.purge_loop now items data !! k = data !! k.
Proof.
  revert data. induction items as [|[k' v'] items IH]; intros data Hall; simpl.
  - done.
  - assert (∀ v, (k, v) ∈ items → After now (Expires v) = false) as Hall'.
    { intros v Hv. apply Hall. rewrite elem_of_cons. by right. }
    destruct (After now (Expires v')) eqn:Hexp.
    + rewrite IH by done. apply lookup_delete_ne. intros ->.
      rewrite Hall in Hexp; [done|]. rewrite elem_of_cons. by left.
    + by apply IH.
Qed.

(** The sweep removes the entries whose expiry has passed and no other,
    in whatever order it visits the map. *)
Lemma purgeExpired_lookup (ord : MapOrder) now data k :
  jwtCache.purgeExpired ord now data !! k
  = match data !! k with
    | Some v => if After now (Expires v) then None else Some v
    | None => None
    end.
Proof.
  unfold jwtCache.purgeExpired.
  assert (∀ v, (k, v) ∈ ord data ↔ data !! k = Some v) as Hin.
  { intros v. rewrite (range_of_perm ord data). apply elem_of_map_to_list. }
  destruct (data !! k) as [v|] eqn:Hk.
  - destruct (After now (Expires v)) eqn:Hexp.
    + eapply purge_loop_removes; [by apply Hin | done].
    + rewrite purge_loop_keeps, Hk; [done|].
      intros v' Hv'. apply Hin in Hv'. congruence.
  - eapply lookup_weaken_None; [exact Hk | apply purge_loop_subseteq].
Qed.

(** *** Capacity enforcement *)

Lemma size_delete_present data k :
  is_Some (data !! k) → Z.of_nat (size (delete k data)) = Z.of_nat (size data) - 1.
Proof.
  intros [v Hv]. pose proof (map_size_delete k data) as Hs.
  rewrite Hv in Hs. simpl in Hs.
  assert (size data ≠ 0%nat).
  { intros H0. apply map_size_empty_inv in H0. subst data.
    by rewrite lookup_empty in Hv. }
  lia.
Qed.

(** The first loop drops at most [toDrop] entries and counts each one it
    drops. *)
Lemma drop_nearly_dead_size now toDrop items data dropped :
  NoDup items.*1 →
  (∀ k, k ∈ items.*1 → is_Some (data !! k)) →
  dropped ≤ toDrop →
  let r := jwtCache.drop_nearly_dead now toDrop items data dropped in
  dropped ≤ r.2 ≤ toDrop
  ∧ Z.of_nat (size r.1) = Z.of_nat (size data) - (r.2 - dropped).
Proof.
  revert data dropped.
  induction items as [|[k e] items IH]; intros data dropped Hnd Hin Hle; simpl.
  - lia.
  - destruct (toDrop <=? dropped) eqn:Hfull; simpl; [lia|].
    apply Z.leb_gt in Hfull.
    apply NoDup_cons in Hnd as [Hk Hnd].
    destruct (negb (After e now) || (Sub e now <? 2 * Minute)).
    + specialize (IH (delete k data) (dropped + 1) Hnd).
      destruct IH as [IH1 IH2]; [|lia|].
      { intros k' Hk'. rewrite lookup_delete_ne; [|by intros ->].
        apply Hin. simpl. rewrite elem_of_cons. by right. }
      assert (is_Some (data !! k)) as Hsome.
      { apply Hin. simpl. rewrite elem_of_cons. by left. }
      rewrite size_delete_present in IH2 by done. lia.
    + specialize (IH data dropped Hnd).
      destruct IH as [IH1 IH2]; [|lia|].
      { intros k' Hk'. apply Hin. simpl. rewrite elem_of_cons. by right. }
      lia.
Qed.

(** The first loop only deletes. *)
Lemma drop_nearly_dead_subseteq now toDrop items data dropped :
  (jwtCache.drop_nearly_dead now toDrop items data dropped).1 ⊆ data.
Proof.
  revert data dropped. induction items as [|[k e] items IH]; intros data dropped; simpl.
  - done.
  - destruct (toDrop <=? dropped); simpl; [done|].
    destruct (negb (After e now) || (Sub e now <? 2 * Minute)).
    + etrans; [apply IH|]. apply delete_subseteq.
    + apply IH.
Qed.

(** The second loop drops what is still to drop, as long as it visits
    enough entries. *)
Lemma drop_any_size toDrop keys data dropped :
  NoDup keys →
  (∀ k, k ∈ keys → is_Some (data !! k)) →
  dropped ≤ toDrop →
  toDrop - dropped ≤ Z.of_nat (length keys) →
  Z.of_nat (size (jwtCache.drop_any toDrop keys data dropped).1)
  = Z.of_nat (size data) - (toDrop - dropped).
Proof.
  revert data dropped.
  induction keys as [|k keys IH]; intros data dropped Hnd Hin Hle Hlen; simpl.
  - simpl in Hlen. lia.
  - destruct (toDrop <=? dropped) eqn:Hfull; simpl.
    + apply Z.leb_le in Hfull. lia.
    + apply Z.leb_gt in Hfull.
      apply NoDup_cons in Hnd as [Hk Hnd].
      rewrite IH; [| done | | lia |].
      * rewrite size_delete_present; [lia|].
        apply Hin. rewrite elem_of_cons. by left.
      * intros k' Hk'. rewrite lookup_delete_ne; [|by intros ->].
        apply Hin. rewrite elem_of_cons. by right.
      * simpl in Hlen. lia.
Qed.

Lemma range_keys_NoDup (ord : MapOrder) data : NoDup (ord data).*1.
Proof.
  rewrite (range_of_perm ord data). apply NoDup_fst_map_to_list.
Qed.

Lemma range_keys_present (ord : MapOrder) data k :
  k ∈ (ord data).*1 → is_Some (data !! k).
Proof.
  rewrite (range_of_perm ord data). intros Hk.
  apply list_elem_of_fmap in Hk as [[k' v] [-> Hkv]].
  apply elem_of_map_to_list in Hkv. eauto.
Qed.

Lemma range_length (ord : MapOrder) data : length (ord data) = size data.
Proof. rewrite (range_of_perm ord data). apply length_map_to_list. Qed.

(** With a positive capacity, [enforceCap] leaves at most [cacheMax]
    entries. *)
Lemma enforceCap_size cacheMax ord1 ord2 now data :
  0 < cacheMax →
  Z.of_nat (size (jwtCache.enforceCap cacheMax ord1 ord2 now data)) ≤ cacheMax.
Proof.
  intros Hpos. unfold jwtCache.enforceCap.
  destruct (cacheMax <=? 0) eqn:H0; [apply Z.leb_le in H0; lia|].
  destruct (Z.of_nat (size data) <=? cacheMax) eqn:Hn; [by apply Z.leb_le|].
  apply Z.leb_gt in Hn.
  set (toDrop := Z.of_nat (size data) - cacheMax).
  set (items := (λ kv : string * cacheEntry, (kv.1, Expires kv.2)) <$> ord1 data).
  assert (items.*1 = (ord1 data).*1) as Hkeys.
  { unfold items. rewrite <- list_fmap_compose. done. }
  pose proof (drop_nearly_dead_size now toDrop items data 0) as H1.
  destruct (jwtCache.drop_nearly_dead now toDrop items data 0) as [data1 dropped] eqn:E.
  simpl in H1. destruct H1 as [Hd Hs].
  { rewrite Hkeys. apply range_keys_NoDup. }
  { intros k. rewrite Hkeys. apply range_keys_present. }
  { unfold toDrop. lia. }
  rewrite drop_any_size.
  - unfold toDrop in *. lia.
  - apply range_keys_NoDup.
  - apply range_keys_present.
  - lia.
  - rewrite length_fmap, range_length. unfold toDrop in *. lia.
Qed.

(** With a capacity of zero or less, [enforceCap] does nothing. *)
Lemma enforceCap_disabled cacheMax ord1 ord2 now data :
  cacheMax ≤ 0 → jwtCache.enforceCap cacheMax ord1 ord2 now data = data.
Proof.
  intros H. unfold jwtCache.enforceCap.
  destruct (cacheMax <=? 0) eqn:H0; [done|]. apply Z.leb_gt in H0. lia.
Qed.

End CacheFacts.

(** *** Hit and miss around the expiry *)

(** C1, as stated, fails: with a margin of 30 seconds and an entry set
    to expire 60 seconds after now, the lookup 31 seconds after now does
    not report not-found. *)
Lemma C1_counterexample :
  let skew := 30 * Second in
  let now := 1700000000 * Second in
  let data := jwtCache.set skew now "k" "J" (now + 60 * Second) ∅ in
  ¬ ((jwtCache.get (now + 29 * Second) "k" data).1 = ("J", true)
     ∧ (jwtCache.get (now + 31 * Second) "k" data).1.2 = false).
Proof. vm_compute. intros [_ H]. discriminate H. Qed.

(** C1, amended.  With a margin of 30 seconds, [set(k, "J", now+60s)]
    stores the entry; the lookup at [now+29s] returns [("J", true)], and
    so does the lookup at [now+31s] that follows it: the entry is served
    until its expiry [now+60s], and a lookup reports not-found exactly
    at the instants strictly after it. *)
Theorem C1_hit_until_expiry (now : Instant) (k : string)
    (data : gmap string cacheEntry) :
  let skew := 30 * Second in
  let data1 := jwtCache.set skew now k "J" (now + 60 * Second) data in
  let '(r1, data2) := jwtCache.get (now + 29 * Second) k data1 in
  let '(r2, data3) := jwtCache.get (now + 31 * Second) k data2 in
  data1 = <[k := CacheEntry "J" (now + 60 * Second)]> data
  ∧ r1 = ("J", true)
  ∧ r2 = ("J", true)
  ∧ data3 = data1
  ∧ ∀ t, (jwtCache.get t k data1).1.2 = false ↔ now + 60 * Second < t.
Proof.
  simpl. rewrite set_stores by (unfold Second; lia).
  set (data1 := <[k := _]> data).
  assert (data1 !! k = Some (CacheEntry "J" (now + 60 * Second))) as Hk
    by apply lookup_insert_eq.
  rewrite (get_found _ _ _ _ _ Hk) by (unfold Second; lia).
  rewrite (get_found _ _ _ _ _ Hk) by (unfold Second; lia).
  repeat split; try done.
  - intros Hmiss. destruct (Z.lt_ge_cases (now + 60 * Second) t) as [|Hle]; [done|].
    rewrite (get_found _ _ _ _ _ Hk) in Hmiss by lia. discriminate.
  - intros Hlt. by rewrite (get_expired _ _ _ _ _ Hk).
Qed.

(** *** Entries that are already expired under the margin *)

(** C5.  A [set(k, jwt, exp)] made at [now] with [exp - skew <= now]
    changes nothing: the map stays as it was, every later lookup answers
    as it would have without the call, and a key that was absent is
    still reported not-found. *)
Theorem C5_set_expired_is_noop (skew : Duration) (now exp : Instant)
    (k jwt : string) (data : gmap string cacheEntry) :
  exp - skew ≤ now →
  jwtCache.set skew now k jwt exp data = data
  ∧ (∀ t k', jwtCache.get t k' (jwtCache.set skew now k jwt exp data)
             = jwtCache.get t k' data)
  ∧ (data !! k = None →
     ∀ t, (jwtCache.get t k (jwtCache.set skew now k jwt exp data)).1
          = (EmptyString, false)).
Proof.
  intros H. rewrite set_skips by lia. repeat split; try done.
  intros Hk t. by rewrite get_absent.
Qed.

Lemma C5_set_expired_is_noop_witness :
  let now := 1700000000 * Second in
  jwtCache.set (30 * Second) now "k" "J" now ∅ = ∅
  ∧ (jwtCache.get (now + 1) "k" (jwtCache.set (30 * Second) now "k" "J" now ∅)).1
    = (EmptyString, false).
Proof.
  pose proof (C5_set_expired_is_noop (30 * Second) (1700000000 * Second)
                (1700000000 * Second) "k" "J" ∅) as H.
  destruct H as (H1 & _ & H3); [unfold Second; lia|].
  split; [exact H1 | apply H3; reflexivity].
Defined.

(** *** The capacity bound *)

(** C6.  For a positive capacity and a cache that holds more entries
    than it, one round of the janitor (the expired sweep, then capacity
    enforcement) leaves at most [cacheMax] entries, in whatever order the
    loops visit the map and whatever the clock reads. *)
Theorem C6_capacity_bound (cacheMax : Z) (ord0 ord1 ord2 : MapOrder)
    (now1 now2 : Instant) (data : gmap string cacheEntry) :
  0 < cacheMax →
  cacheMax < Z.of_nat (size data) →
  Z.of_nat (size (jwtCache.janitor_pass cacheMax ord0 ord1 ord2 now1 now2 data))
  ≤ cacheMax.
Proof.
  intros Hpos _. unfold jwtCache.janitor_pass. by apply enforceCap_size.
Qed.

Lemma C6_capacity_bound_witness :
  let far := 1800000000 * Second in
  let data : gmap string cacheEntry :=
    <["a" := CacheEntry "J1" far]>
      (<["b" := CacheEntry "J2" far]> (<["c" := CacheEntry "J3" far]> ∅)) in
  Z.of_nat (size (jwtCache.janitor_pass 2 listing_order listing_order listing_order
                    (1700000000 * Second) (1700000001 * Second) data)) ≤ 2.
Proof.
  apply C6_capacity_bound; [lia | vm_compute; reflexivity].
Defined.

(** *** The capacity setting *)

Lemma filled_size n : size (filled n) = n.
Proof.
  unfold filled. rewrite <- length_map_to_list.
  rewrite map_to_list_to_map.
  - by rewrite length_fmap, length_seq.
  - rewrite <- list_fmap_compose.
    apply (NoDup_fmap_2 (pretty : nat → string)), NoDup_seq.
Qed.

(** C2, as stated, fails for a negative setting: with [-1] the capacity
    is the default 10000, and enforcement removes an entry from a cache
    of 10001. *)
Lemma C2_counterexample :
  let environ : gmap string string := {[ "CACHE_MAX_ENTRIES" := "-1" ]} in
  strconv.Atoi (Getenv environ "CACHE_MAX_ENTRIES") = Some (-1)
  ∧ jwtCache.enforceCap (cacheMax environ) listing_order listing_order
      (1700000000 * Second) (filled (Z.to_nat 10001))
    ≠ filled (Z.to_nat 10001).
Proof.
  split; [vm_compute; reflexivity|].
  assert (cacheMax {[ "CACHE_MAX_ENTRIES" := "-1" ]} = 10000) as ->
    by (vm_compute; reflexivity).
  intros Heq.
  pose proof (enforceCap_size 10000 listing_order listing_order
                (1700000000 * Second) (filled (Z.to_nat 10001))) as Hle.
  rewrite Heq, filled_size in Hle. lia.
Qed.

(** C2, amended.  A capacity setting that reads as zero disables
    capacity enforcement: [enforceCap] removes no entry, however many the
    cache holds.  A setting that reads as a negative number does not: it
    is replaced by the default capacity 10000. *)
Theorem C2_zero_disables_negative_defaults (environ : gmap string string) (i : Z) :
  strconv.Atoi (Getenv environ "CACHE_MAX_ENTRIES") = Some i →
  i ≤ 0 →
  (i = 0 →
   ∀ ord1 ord2 now data,
     jwtCache.enforceCap (cacheMax environ) ord1 ord2 now data = data)
  ∧ (i < 0 → cacheMax environ = 10000).
Proof.
  intros Hi Hle. unfold cacheMax, intFromEnv.
  destruct (is_empty (Getenv environ "CACHE_MAX_ENTRIES")) eqn:He.
  { destruct (Getenv environ "CACHE_MAX_ENTRIES"); [|discriminate He].
    vm_compute in Hi. discriminate Hi. }
  rewrite Hi. split.
  - intros -> ord1 ord2 now data. simpl. by apply enforceCap_disabled.
  - intros Hneg. apply Z.ltb_lt in Hneg. by rewrite Hneg.
Qed.

Lemma C2_zero_disables_negative_defaults_witness :
  (∀ ord1 ord2 now data,
     jwtCache.enforceCap (cacheMax {[ "CACHE_MAX_ENTRIES" := "0" ]})
       ord1 ord2 now data = data)
  ∧ cacheMax {[ "CACHE_MAX_ENTRIES" := "-5" ]} = 10000.
Proof.
  split.
  - apply (C2_zero_disables_negative_defaults {[ "CACHE_MAX_ENTRIES" := "0" ]} 0);
      [vm_compute; reflexivity | lia | reflexivity].
  - apply (C2_zero_disables_negative_defaults {[ "CACHE_MAX_ENTRIES" := "-5" ]} (-5));
      [vm_compute; reflexivity | lia | lia].
Defined.

(** ** Bearer extraction *)

(** C7.  The four extractions of the claim: surrounding white space is
    dropped, the scheme is matched without regard to case, and the empty
    header and a header of another scheme give the empty string. *)
Theorem C7_bearer_extraction :
  extractBearer "Bearer   abc.def.ghi  " = "abc.def.ghi"
  ∧ extractBearer "bearer xyz" = "xyz"
  ∧ extractBearer EmptyString = EmptyString
  ∧ extractBearer "Basic xyz" = EmptyString.
Proof. repeat split; vm_compute; reflexivity. Qed.

(** ** Expiry extraction *)

(** C3, as stated, fails: the token has three segments, its middle
    segment decodes to a record whose [exp] is the string 1700000000, and
    the extractor reports the unsupported type. *)
Lemma C3_counterexample :
  GoStrings.Split token_exp_string "."%char
  = ["eyJhbGciOiJIUzI1NiJ9"; "eyJleHAiOiIxNzAwMDAwMDAwIn0"; "c2ln"]
  ∧ base64.RawURLEncoding_DecodeString "eyJleHAiOiIxNzAwMDAwMDAwIn0"
    = Some payload_exp_string
  ∧ (json.Unmarshal payload_exp_string ≫= (.!! "exp")) = Some (json.Str "1700000000")
  ∧ parseJWTExp token_exp_string = (GoTime.zero, Some ExpTypeUnsupported)
  ∧ parseJWTExp token_exp_string ≠ (Unix 1700000000, None).
Proof. repeat split; try (vm_compute; reflexivity). vm_compute. discriminate. Qed.

(** C3, amended.  For a token of exactly three dot-separated segments
    whose middle segment decodes to a record whose [exp] field is a JSON
    string, the extractor fails and reports the unsupported type. *)
Theorem C3_exp_string_unsupported (jwt header payload signature decoded s : string)
    (claims : gmap string json.any) :
  GoStrings.Split jwt "."%char = [header; payload; signature] →
  base64.RawURLEncoding_DecodeString payload = Some decoded →
  json.Unmarshal decoded = Some claims →
  claims !! "exp" = Some (json.Str s) →
  parseJWTExp jwt = (GoTime.zero, Some ExpTypeUnsupported).
Proof.
  intros Hsplit Hdec Hjson Hexp. unfold parseJWTExp.
  rewrite Hsplit. simpl. rewrite Hdec, Hjson, Hexp. reflexivity.
Qed.

Lemma C3_exp_string_unsupported_witness :
  parseJWTExp token_exp_string = (GoTime.zero, Some ExpTypeUnsupported).
Proof.
  apply (C3_exp_string_unsupported token_exp_string
           "eyJhbGciOiJIUzI1NiJ9" "eyJleHAiOiIxNzAwMDAwMDAwIn0" "c2ln"
           payload_exp_string "1700000000"
           {[ "exp" := json.Str "1700000000" ]});
    vm_compute; reflexivity.
Defined.

(** ** The JSON decoder *)

Section JsonFuel.

Local Open Scope nat_scope.
Local Abbreviation L := String.length.

Lemma skip_ws_length s : L (json.skip_ws s) ≤ L s.
Proof. induction s as [|c s IH]; simpl; [lia|]. destruct (json.is_ws c); simpl; lia. Qed.

Lemma head_is_length n s r : json.head_is n s = Some r → L s = S (L r).
Proof. destruct s as [|c s]; simpl; [done|]. destruct (_ =? _)%Z; [|done]. by intros [= ->]. Qed.

Lemma strip_prefix_length p s r : GoStrings.strip_prefix p s = Some r → L r ≤ L s.
Proof.
  revert s. induction p as [|a p IH]; intros s; simpl.
  - by intros [= ->].
  - destruct s as [|b s]; [done|]. destruct (Ascii.eqb a b); [|done].
    intros H. apply IH in H. simpl. lia.
Qed.

Lemma low_surrogate_length s r2 rest : json.low_surrogate s = Some (r2, rest) → L s = 6 + L rest.
Proof.
  unfold json.low_surrogate.
  destruct s as [|b [|u [|a1 [|a2 [|a3 [|a4 rest']]]]]]; try done.
  repeat case_match; try done. by intros [= _ ->].
Qed.

Lemma string_body_length s : ∀ p acc str r,
  json.string_body s p acc = Some (str, r) → L r < L s.
Proof.
  induction s as [s IH] using (well_founded_induction (well_founded_ltof _ String.length)).
  intros p acc str r H. destruct s as [|c rest]; [done|].
  cbn [json.string_body] in H.
  assert (∀ s' p' acc', L s' ≤ L rest → json.string_body s' p' acc' = Some (str, r) → L r < L (String c rest)) as IH'.
  { intros s' p' acc' Hlen Hs'. apply IH in Hs'; [simpl; lia | unfold ltof; simpl; lia]. }
  clear IH.
  destruct p as [|p]; [|by eapply IH'; [|exact H]].
  repeat (case_match; simplify_eq; try done).
  all: try (simpl; lia).
  all: try (eapply IH'; [|exact H]; simpl; lia).
Qed.

Lemma digits_length s : ∀ acc cnt m c r,
  json.digits s acc cnt = (m, c, r) →
  (Z.of_nat (L s) = Z.of_nat (L r) + (c - cnt) ∧ cnt ≤ c)%Z.
Proof.
  induction s as [|ch s IH]; intros acc cnt m c r; simpl.
  - intros [= <- <- <-]. simpl. lia.
  - destruct (json.digit_of ch).
    + intros H. apply IH in H. lia.
    + intros [= <- <- <-]. simpl. lia.
Qed.

Lemma exp_digits_length s : ∀ e cnt m c r,
  json.exp_digits s e cnt = (m, c, r) →
  (Z.of_nat (L s) = Z.of_nat (L r) + (c - cnt) ∧ cnt ≤ c)%Z.
Proof.
  induction s as [|ch s IH]; intros e cnt m c r; simpl.
  - intros [= <- <- <-]. simpl. lia.
  - destruct (json.digit_of ch).
    + intros H. apply IH in H. lia.
    + intros [= <- <- <-]. simpl. lia.
Qed.

Ltac number_step :=
  first
    [ match goal with
      | |- context [json.digits ?a ?b ?c] =>
          let E := fresh "E" in
          destruct (json.digits a b c) as [[? ?] ?] eqn:E;
          apply digits_length in E
      | |- context [json.exp_digits ?a ?b ?c] =>
          let E := fresh "E" in
          destruct (json.exp_digits a b c) as [[? ?] ?] eqn:E;
          apply exp_digits_length in E
      | |- context [json.head_is ?a ?b] =>
          let E := fresh "E" in
          destruct (json.head_is a b) eqn:E; [apply head_is_length in E|]
      | |- context [(?a =? ?b)%Z] =>
          let E := fresh "E" in
          destruct (Z.eqb_spec a b) as [E|E]
      end
    | case_match ].

Lemma number_literal_length s neg m e r :
  json.number_literal s = Some (neg, m, e, r) → L r < L s.
Proof.
  unfold json.number_literal.
  repeat (number_step; simplify_eq; cbn [mbind option_bind]; try done).
  all: intros; simplify_eq; cbn [String.length] in *; try lia.
Qed.

Lemma number_length s v r : json.number s = Some (v, r) → L r < L s.
Proof.
  unfold json.number.
  destruct (json.number_literal s) as [[[[neg m] e] rest]|] eqn:E; simpl; [|done].
  apply number_literal_length in E.
  destruct (float64.of_decimal neg m e); intros [= <- <-]; done.
Qed.

Lemma keyword_length w v s v' r : json.keyword w v s = Some (v', r) → L r ≤ L s.
Proof.
  unfold json.keyword.
  destruct (GoStrings.strip_prefix w s) eqn:E; simpl; [|done].
  apply strip_prefix_length in E. by intros [= _ <-].
Qed.

#[local] Arguments json.keyword : simpl never.
#[local] Arguments json.number : simpl never.
#[local] Arguments json.string_body : simpl never.
#[local] Arguments json.skip_ws : simpl never.
#[local] Arguments json.head_is : simpl never.

(** Facts on the lengths of the texts in the context. *)
Ltac lengths :=
  repeat match goal with
    | H : json.head_is _ _ = Some _ |- _ => apply head_is_length in H
    | H : json.string_body _ _ _ = Some _ |- _ => apply string_body_length in H
    | H : json.keyword _ _ _ = Some _ |- _ => apply keyword_length in H
    | H : json.number _ = Some _ |- _ => apply number_length in H
    | H : json.skip_ws ?s = ?t |- _ =>
        let E := fresh "E" in
        assert (L t ≤ L s) as E by (rewrite <- H; apply skip_ws_length);
        clear H
    | H : context [L (json.skip_ws ?s)] |- _ =>
        lazymatch goal with
        | _ : L (json.skip_ws s) ≤ L s |- _ => fail
        | _ => pose proof (skip_ws_length s)
        end
    end;
  cbn [String.length] in *.

Ltac json_step0 H :=
  match type of H with
  | context [json.string_body ?a ?b ?c ≫= _] =>
      let E := fresh "E" in
      destruct (json.string_body a b c) as [[? ?]|] eqn:E; simpl in H
  | context [json.value ?a ?b ?c ≫= _] =>
      let E := fresh "E" in
      destruct (json.value a b c) as [[? ?]|] eqn:E; simpl in H
  | context [json.head_is ?a ?b] =>
      let E := fresh "E" in
      destruct (json.head_is a b) eqn:E
  | context [json.skip_ws ?a] =>
      let E := fresh "E" in
      destruct (json.skip_ws a) eqn:E
  | context [(?a =? ?b)%Z] => destruct (a =? b)%Z
  | context [(?a <? ?b)%Z] => destruct (a <? b)%Z
  end;
  try discriminate H.

(** A value takes at least one byte of the text. *)
Lemma json_consumes n :
  (∀ d s v r, json.value n d s = Some (v, r) → L r < L s)
  ∧ (∀ d s acc v r, json.members n d s acc = Some (v, r) → L r < L s)
  ∧ (∀ d s acc v r, json.elements n d s acc = Some (v, r) → L r < L s).
Proof.
  induction n as [|n (IHv & IHm & IHe)].
  { repeat split; intros; discriminate. }
  repeat split.
  all: intros; match goal with H : _ = Some _ |- _ => simpl in H; repeat json_step0 H end.
  all: repeat match goal with
         | H : json.value _ _ _ = Some _ |- _ => apply IHv in H
         | H : json.members _ _ _ _ = Some _ |- _ => apply IHm in H
         | H : json.elements _ _ _ _ = Some _ |- _ => apply IHe in H
         end.
  all: simplify_eq; lengths; lia.
Qed.

Ltac json_step H :=
  match type of H with
  | context [json.string_body ?a ?b ?c ≫= _] =>
      let E := fresh "E" in
      destruct (json.string_body a b c) as [[? ?]|] eqn:E
  | context [json.value ?a ?b ?c ≫= _] =>
      let E := fresh "E" in
      destruct (json.value a b c) as [[? ?]|] eqn:E
  | context [json.head_is ?a ?b] =>
      let E := fresh "E" in
      destruct (json.head_is a b) eqn:E
  | context [json.skip_ws ?a] =>
      let E := fresh "E" in
      destruct (json.skip_ws a) eqn:E
  | context [(?a =? ?b)%Z] =>
      let E := fresh "E" in destruct (a =? b)%Z eqn:E
  | context [(?a <? ?b)%Z] =>
      let E := fresh "E" in destruct (a <? b)%Z eqn:E
  end;
  simpl in H |- *;
  try discriminate H.

Ltac consumed n :=
  repeat match goal with
    | H : json.value _ _ _ = Some _ |- _ => apply (proj1 (json_consumes n)) in H
    | H : json.members _ _ _ _ = Some _ |- _ => apply (proj1 (proj2 (json_consumes n))) in H
    | H : json.elements _ _ _ _ = Some _ |- _ => apply (proj2 (proj2 (json_consumes n))) in H
    end;
  simplify_eq; lengths.

(** A run that succeeds succeeds with any fuel that is twice the number
    of bytes it takes. *)
Lemma json_fuel n :
  (∀ d s v r f, json.value n d s = Some (v, r) →
     2 * L s ≤ f + 2 * L r → json.value f d s = Some (v, r))
  ∧ (∀ d s acc v r f, json.members n d s acc = Some (v, r) →
     2 * L s ≤ f + 2 * L r → json.members f d s acc = Some (v, r))
  ∧ (∀ d s acc v r f, json.elements n d s acc = Some (v, r) →
     2 * L s ≤ f + 2 * L r → json.elements f d s acc = Some (v, r)).
Proof.
  induction n as [|n (IHv & IHm & IHe)].
  { repeat split; intros; discriminate. }
  repeat split.
  all: intros until f; intros H Hf.
  all: destruct f as [|f];
    [by (exfalso; match goal with IH : ∀ d s v r f, json.value ?n0 d s = _ → _ |- _ =>
                    consumed (S n0) end; lia)|].
  all: simpl in H |- *; repeat json_step H.
  all: try match goal with
         | E : json.value ?n0 ?d ?x = Some (?v', ?r') |- context [json.value ?f0 ?d ?x] =>
             let K := fresh "K" in
             assert (json.value f0 d x = Some (v', r')) as K
               by (apply (IHv _ _ _ _ _ E); consumed n0; lia);
             rewrite K; simpl
         end.
  all: repeat match goal with
         | E : ?x = _ |- context [match ?x with _ => _ end] => rewrite E; simpl
         end.
  all: try done.
  all: first [ apply IHm | apply IHe ]; [done|].
  all: match goal with IH : ∀ d s v r f, json.value ?n0 d s = _ → _ |- _ => consumed n0 end; lia.
Qed.

(** The fuel [parse] starts with is enough: a text that some amount of
    fuel decodes is decoded by [parse]. *)
Lemma json_parse_fuel_enough n data v rest :
  json.value n 0 data = Some (v, rest) →
  json.skip_ws rest = EmptyString →
  json.parse data = Some v.
Proof.
  intros H Hrest. unfold json.parse.
  rewrite (proj1 (json_fuel n) _ _ _ _ (2 * L data + 2) H) by lia.
  simpl. by rewrite Hrest.
Qed.

End JsonFuel.

Ltac break_bind :=
  match goal with
  | |- context [?o ≫= _] => destruct o eqn:?; simpl
  end.

Ltac json_cases :=
  repeat (first [break_bind | case_match]; simplify_eq; simpl; try done).

Lemma json_keyword_value w v s v' r :
  json.keyword w v s = Some (v', r) → v' = v.
Proof.
  unfold json.keyword. destruct (GoStrings.strip_prefix w s); simpl; congruence.
Qed.

Lemma json_number_value s v r :
  json.number s = Some (v, r) → ∃ f, v = json.Float64 f.
Proof.
  unfold json.number.
  destruct (json.number_literal s) as [[[[neg m] e] rest]|]; simpl; [|done].
  destruct (float64.of_decimal neg m e); intros [= <- <-]; eauto.
Qed.

(** The decoder never yields a [json.Number]: the second case of the type
    switch (line 230) is not reached. *)
Lemma json_value_not_Number fuel :
  (∀ depth s v r, json.value fuel depth s = Some (v, r) → json.is_Number v = false)
  ∧ (∀ depth s acc v r,
       Forall (λ kv, json.is_Number kv.2 = false) acc →
       json.members fuel depth s acc = Some (v, r) →
       ∃ fields, v = json.Object fields
                 ∧ Forall (λ kv, json.is_Number kv.2 = false) fields)
  ∧ (∀ depth s acc v r,
       json.elements fuel depth s acc = Some (v, r) → ∃ elems, v = json.Slice elems).
Proof.
  induction fuel as [|fuel (IHv & IHm & IHe)].
  { repeat split; intros; discriminate. }
  repeat split.
  - intros depth s v r. simpl. json_cases.
    all: intros Hres.
    all: first
      [ by simplify_eq
      | by apply json_keyword_value in Hres as ->
      | by apply json_number_value in Hres as [f ->]
      | by destruct (IHe _ _ _ _ _ Hres) as [l ->]
      | by destruct (IHm _ _ _ _ _ (Forall_nil_2 _) Hres) as (fs & -> & _) ].
  - intros depth s acc v r Hacc. simpl. json_cases.
    all: intros Hres.
    all: first
      [ by (eapply IHm; [|exact Hres]; constructor; [|done]; simpl; eauto)
      | injection Hres as <- <-; eexists; split; [done|];
        apply Forall_app; split; [by apply Forall_rev|];
        constructor; [|done]; simpl; eauto ].
  - intros depth s acc v r. simpl. json_cases.
    all: intros Hres.
    all: first [ by (simplify_eq; eauto) | by apply IHe in Hres ].
Qed.

(** The fields of a decoded object come from [members]. *)
Lemma json_object_fields fuel depth s fields r :
  json.value fuel depth s = Some (json.Object fields, r) →
  Forall (λ kv, json.is_Number kv.2 = false) fields.
Proof.
  destruct fuel as [|fuel]; [discriminate|]. simpl. json_cases.
  all: intros Hres.
  all: first
    [ by (simplify_eq; constructor)
    | by apply json_keyword_value in Hres
    | by apply json_number_value in Hres as [f [=]]
    | by (destruct (proj1 (proj2 (json_value_not_Number fuel))
                      _ _ _ _ _ (Forall_nil_2 _) Hres) as (fs & [= <-] & Hall))
    | by (destruct (proj2 (proj2 (json_value_not_Number fuel)) _ _ _ _ _ Hres)
            as [l [=]]) ].
Qed.

Lemma Unmarshal_not_Number data claims k v :
  json.Unmarshal data = Some claims → claims !! k = Some v →
  json.is_Number v = false.
Proof.
  unfold json.Unmarshal, json.parse. intros H Hk.
  destruct (json.value _ 0 data) as [[v0 rest]|] eqn:Hv; simpl in H; [|done].
  destruct (json.skip_ws rest); [|done].
  destruct v0 as [| | | | | |fields]; try discriminate H.
  - injection H as <-. by rewrite lookup_empty in Hk.
  - injection H as <-.
    apply json_object_fields in Hv.
    apply elem_of_list_to_map_2, list_elem_of_In, in_rev, list_elem_of_In in Hk.
    rewrite Forall_forall in Hv. by apply (Hv (k, v)).
Qed.

(** X13.  The extractor succeeds on a number and on nothing else: a
    success means three segments, a payload that decodes, a JSON object,
    and an [exp] member that is a number, whose whole seconds are the
    instant returned. *)
Lemma parseJWTExp_success jwt t :
  parseJWTExp jwt = (t, None) →
  ∃ header payload signature decoded claims f,
    GoStrings.Split jwt "."%char = [header; payload; signature]
    ∧ base64.RawURLEncoding_DecodeString payload = Some decoded
    ∧ json.Unmarshal decoded = Some claims
    ∧ claims !! "exp" = Some (json.Float64 f)
    ∧ t = Unix (float64.to_int64 f).
Proof.
  unfold parseJWTExp.
  destruct (GoStrings.Split jwt ".") as [|h [|p [|sg [|? ?]]]] eqn:Hsplit;
    simpl; try discriminate.
  destruct (base64.RawURLEncoding_DecodeString p) as [decoded|] eqn:Hdec; [|discriminate].
  destruct (json.Unmarshal decoded) as [claims|] eqn:Hjson; [|discriminate].
  destruct (claims !! "exp") as [v|] eqn:Hexp; [|discriminate].
  pose proof (Unmarshal_not_Number _ _ _ _ Hjson Hexp) as Hnum.
  destruct v; try discriminate; try discriminate Hnum.
  intros [= <-]. by exists h, p, sg, decoded, claims, f.
Qed.

(** A number is the one type of [exp] the extractor reads: the fraction
    is dropped and the seconds become the instant. *)
Lemma parseJWTExp_number (jwt header payload signature decoded : string)
    (claims : gmap string json.any) (f : float64.t) :
  GoStrings.Split jwt "."%char = [header; payload; signature] →
  base64.RawURLEncoding_DecodeString payload = Some decoded →
  json.Unmarshal decoded = Some claims →
  claims !! "exp" = Some (json.Float64 f) →
  parseJWTExp jwt = (Unix (float64.to_int64 f), None).
Proof.
  intros Hsplit Hdec Hjson Hexp. unfold parseJWTExp.
  rewrite Hsplit. simpl. rewrite Hdec, Hjson, Hexp. reflexivity.
Qed.

Example parseJWTExp_1700000000 :
  parseJWTExp "eyJhbGciOiJIUzI1NiJ9.eyJleHAiOjE3MDAwMDAwMDB9.c2ln"
  = (Unix 1700000000, None).
Proof. vm_compute. reflexivity. Qed.

Example parseJWTExp_two_segments :
  parseJWTExp "eyJhbGciOiJIUzI1NiJ9.eyJleHAiOjE3MDAwMDAwMDB9"
  = (GoTime.zero, Some NotCompactJWS).
Proof. vm_compute. reflexivity. Qed.

(** ** The hooks *)

Lemma wrap64_range z : minInt64 ≤ wrap64 z ≤ maxInt64.
Proof.
  unfold wrap64, minInt64, maxInt64.
  pose proof (Z.mod_pos_bound (z + 2 ^ 63) (2 ^ 64)). lia.
Qed.

Lemma wrap64_small z : minInt64 ≤ z ≤ maxInt64 → wrap64 z = z.
Proof.
  unfold wrap64, minInt64, maxInt64. intros H.
  rewrite Z.mod_small; lia.
Qed.

(** [time.Unix] on the seconds an [int64] holds: up to
    [maxInt64 - unixToInternal] the instant is that many seconds after
    the epoch; above, the seconds from year 1 wrap around and the
    instant is [2 ^ 64] seconds earlier. *)
Lemma Unix_in_range sec :
  minInt64 ≤ sec ≤ maxInt64 - unixToInternal → Unix sec = sec * Second.
Proof.
  intros H. unfold Unix. rewrite wrap64_small; [f_equal; lia|].
  unfold minInt64, maxInt64, unixToInternal in *. lia.
Qed.

Lemma Unix_wraps sec :
  maxInt64 - unixToInternal < sec ≤ maxInt64 →
  Unix sec = (sec - 2 ^ 64) * Second.
Proof.
  intros H. unfold Unix, wrap64. f_equal.
  unfold minInt64, maxInt64, unixToInternal in *.
  rewrite <- (Z.mod_unique (sec + 62135596800 + 2 ^ 63) (2 ^ 64) 1
                (sec + 62135596800 + 2 ^ 63 - 2 ^ 64)); lia.
Qed.

Lemma clockSkew_range environ : minInt64 ≤ clockSkew environ ≤ maxInt64.
Proof.
  unfold clockSkew, durationFromEnvSeconds.
  repeat case_match; apply wrap64_range.
Qed.

(** Without a setting the margin is 30 seconds. *)
Lemma clockSkew_default environ :
  environ !! "CLOCK_SKEW_SECONDS" = None → clockSkew environ = 30 * Second.
Proof.
  intros H. unfold clockSkew, durationFromEnvSeconds, Getenv. rewrite H. reflexivity.
Qed.

Lemma unauthorized_short_circuit obj msg : short_circuit msg (unauthorized obj msg).
Proof.
  unfold short_circuit, unauthorized. simpl.
  eexists _, _, _. repeat split. apply lookup_insert_eq.
Qed.

Section HookFacts.

Variable environ : gmap string string.
Variable clock : nat → Instant.
Variable roundTrip : string → exchange.

Lemma accept_returns obj jwt opaque w :
  accept obj jwt opaque w = Returned (accepted obj jwt opaque, None) w.
Proof.
  unfold accept, bind, setMetadata, ensureMetadata, ensureSession, accepted, ret.
  destruct (Metadata obj) as [m|] eqn:Hm; simpl; rewrite ?Hm; reflexivity.
Qed.

(** The auth check always returns: no path of it panics. *)
Lemma phantomAuthCheck_returns obj w :
  ∃ o w', phantomAuthCheck environ clock roundTrip obj w = Returned (o, None) w'.
Proof.
  unfold phantomAuthCheck, bind, cStore_get, cStore_set, introspectForJWTAndExp,
    timeNow, ret, bind.
  repeat (case_match; simpl; simplify_eq; rewrite ?accept_returns; eauto).
Qed.

(** The inject hook returns when the object has a request, or no JWT. *)
Lemma injectJwtPostKeyAuth_returns obj w :
  is_Some (Request obj) ∨ index (Metadata obj) "phantom_jwt" = EmptyString →
  ∃ o, injectJwtPostKeyAuth obj w = Returned (o, None) w.
Proof.
  unfold injectJwtPostKeyAuth, index, ret, panic.
  intros [[req Hreq]|Hjwt].
  - rewrite Hreq. repeat case_match; eauto.
  - destruct (Metadata obj) as [m|]; [rewrite Hjwt|]; simpl; eauto.
Qed.

End HookFacts.

(** *** Faults *)

(** C4 does not hold of the code.  On an object with a JWT in its
    metadata and no request record, the post-key-auth hook dereferences
    the nil request (line 321) and the invocation panics instead of
    returning a record. *)
Theorem C4_inject_panics_without_request (environ : gmap string string)
    (clock : nat → Instant) (roundTrip : string → exchange) (w : World) :
  Dispatch environ clock roundTrip object_without_request w
  = Panicked nilDereference.
Proof. reflexivity. Qed.

(** *** Unknown hook names *)

(** C8.  For a hook name other than the two the plugin knows, [Dispatch]
    returns the object it was given, with a nil error, and leaves the
    cache and the clock alone. *)
Theorem C8_dispatch_passes_through (environ : gmap string string)
    (clock : nat → Instant) (roundTrip : string → exchange)
    (obj : Object) (w : World) :
  HookName obj ≠ "PhantomAuthCheck" →
  HookName obj ≠ "InjectJwtPostKeyAuth" →
  Dispatch environ clock roundTrip obj w = Returned (obj, None) w.
Proof.
  intros H1 H2. unfold Dispatch.
  destruct (decide (HookName obj = "PhantomAuthCheck")); [done|].
  destruct (decide (HookName obj = "InjectJwtPostKeyAuth")); [done|].
  reflexivity.
Qed.

Lemma C8_dispatch_passes_through_witness :
  Dispatch ∅ (λ n, Z.of_nat n) (λ _, DoFailed "unreachable") object_other_hook world_empty
  = Returned (object_other_hook, None) world_empty.
Proof.
  apply C8_dispatch_passes_through; simpl; discriminate.
Defined.

(** *** Rejections *)

(** C9.  Every rejection produced by either hook short-circuits the
    request.  When a hook returns and what it returns is not the object
    it lets the request go on with, the error is nil and the object is
    the one [unauthorized] builds for one of the rejection reasons: its
    override record has the response code 401, the [WWW-Authenticate]
    header with the invalid-token challenge, and the reason as both the
    response error and the response body. *)
Theorem C9_rejections_short_circuit (environ : gmap string string)
    (clock : nat → Instant) (roundTrip : string → exchange)
    (obj o : Object) (e : option string) (w w' : World) :
  (phantomAuthCheck environ clock roundTrip obj w = Returned (o, e) w'
   ∧ ¬ auth_check_accepts obj o)
  ∨ (injectJwtPostKeyAuth obj w = Returned (o, e) w'
     ∧ ¬ inject_forwards obj o) →
  e = None
  ∧ ∃ msg, rejection_reason msg ∧ o = unauthorized obj msg ∧ short_circuit msg o.
Proof.
  assert (∀ msg, rejection_reason msg →
            @None string = None
            ∧ ∃ msg', rejection_reason msg'
                      ∧ unauthorized obj msg = unauthorized obj msg'
                      ∧ short_circuit msg' (unauthorized obj msg)) as Hrej.
  { intros msg Hmsg. split; [done|]. exists msg. eauto using unauthorized_short_circuit. }
  intros [[H Hn]|[H Hn]].
  - revert H.
    unfold phantomAuthCheck, bind, cStore_get, cStore_set, introspectForJWTAndExp,
      timeNow, ret, bind.
    repeat (case_match; simpl; simplify_eq; rewrite ?accept_returns);
      intros [= <- <- <-];
      try (exfalso; apply Hn; eexists; reflexivity);
      apply Hrej; unfold rejection_reason; eauto.
  - revert H. unfold injectJwtPostKeyAuth, ret, panic.
    destruct (Request obj) as [req|] eqn:Hreq;
      repeat (case_match; simpl; simplify_eq);
      intros [= <- <- <-];
      try (exfalso; apply Hn; exists req; split; [exact Hreq|];
           unfold index;
           repeat match goal with Hm : Metadata obj = _ |- _ => rewrite Hm end;
           reflexivity).
    all: apply Hrej; unfold rejection_reason; eauto 10.
Qed.

Lemma C9_rejections_short_circuit_witness :
  @None string = None
  ∧ ∃ msg, rejection_reason msg
           ∧ unauthorized object_other_hook "Token inactive or invalid"
             = unauthorized object_other_hook msg
           ∧ short_circuit msg (unauthorized object_other_hook "Token inactive or invalid").
Proof.
  apply (C9_rejections_short_circuit ∅ (λ n, Z.of_nat n)
           (λ _, Responded {| StatusCode := 200; Body := "inactive"; BodyErr := None |})
           object_other_hook _ None world_empty
           {| cStore := ∅; clockReads := 1 |}).
  left. split.
  - vm_compute. reflexivity.
  - intros [jwt H]. discriminate H.
Defined.

(** *** The fallback expiry and the cache *)

(** With a margin of 15 seconds or more, the expiry the orchestrator
    derives from the fallback window never passes the admission test of
    [set]: the fallback is read at [t1], the test is made at [t2], not
    before [t1]. *)
Lemma fallback_not_admitted skew t1 t2 key jwt data :
  15 * Second ≤ skew → minInt64 ≤ skew ≤ maxInt64 → t1 ≤ t2 →
  jwtCache.set skew t2 key jwt (Add (Add t1 (30 * Second)) (wrap64 (- skew))) data
  = data.
Proof.
  intros Hskew Hrange Hmono. apply set_skips.
  rewrite wrap64_small by (unfold minInt64, maxInt64, Second in *; lia).
  unfold Add, Second in *. lia.
Qed.

(** The default margin is one of those. *)
Lemma default_margin_at_least_15s environ :
  environ !! "CLOCK_SKEW_SECONDS" = None → 15 * Second ≤ clockSkew environ.
Proof. intros H. rewrite clockSkew_default by done. unfold Second. lia. Qed.

(** Below 15 seconds the fallback can be admitted: with a margin of 14
    seconds and both readings equal, [set] stores the entry. *)
Example fallback_admitted_below_15s :
  let t := 1700000000 * Second in
  let skew := 14 * Second in
  jwtCache.set skew t "k" "J" (Add (Add t (30 * Second)) (wrap64 (- skew))) ∅
  = {[ "k" := CacheEntry "J" (t + 16 * Second) ]}.
Proof. vm_compute. reflexivity. Qed.

(** C10.  Take a request with a bearer token that misses the cache,
    whose introspection answers 200 with a body of two dots from which no
    expiry can be extracted.  If the margin is 15 seconds or more and the
    clock does not run backwards, the auth check accepts the request
    (the JWT is in the metadata, the request record is untouched) and
    [set] admits nothing: the cache is as the miss left it, without an
    entry for the key, and as it was before the hook if the key was not
    in it. *)
Theorem C10_fallback_never_cached (environ : gmap string string)
    (clock : nat → Instant) (roundTrip : string → exchange)
    (obj : Object) (w : World) (resp : Response) :
  let opaque := extractBearer (index (GetRequest_GetHeaders obj) "Authorization") in
  let key := sha256Hex opaque in
  let jwt := GoStrings.TrimSpace (Body resp) in
  let lookup := jwtCache.get (clock (clockReads w)) key (cStore w) in
  (∀ i j : nat, (i ≤ j)%nat → clock i ≤ clock j) →
  15 * Second ≤ clockSkew environ →
  opaque ≠ EmptyString →
  lookup.1.2 = false →
  roundTrip opaque = Responded resp →
  StatusCode resp = 200 →
  BodyErr resp = None →
  countDots jwt = 2 →
  (parseJWTExp jwt).2 ≠ None →
  phantomAuthCheck environ clock roundTrip obj w
  = Returned (accepted obj jwt opaque, None)
      {| cStore := lookup.2; clockReads := S (S (S (clockReads w))) |}
  ∧ index (Metadata (accepted obj jwt opaque)) "phantom_jwt" = jwt
  ∧ lookup.2 !! key = None
  ∧ (cStore w !! key = None → lookup.2 = cStore w).
Proof.
  intros opaque key jwt lookup Hmono Hskew Hopaque Hmiss Hrt Hstatus Hbody Hdots Hexp.
  assert (jwt ≠ EmptyString) as Hjwt.
  { intros Hj. rewrite Hj in Hdots. discriminate Hdots. }
  repeat split.
  - unfold phantomAuthCheck. fold opaque. fold key.
    destruct (is_empty opaque) eqn:Hempty.
    { destruct opaque; [done | discriminate Hempty]. }
    unfold bind at 1. unfold cStore_get, bind, timeNow. simpl. fold lookup.
    destruct lookup as [[v found] data1] eqn:Hlookup. simpl in Hmiss. subst found.
    simpl. unfold introspectForJWTAndExp, bind. rewrite Hrt, Hstatus, Hbody. simpl.
    fold jwt. rewrite Hdots. simpl.
    destruct (parseJWTExp jwt) as [exp [err|]] eqn:Hparse; [|done].
    unfold timeNow, ret, cStore_set, bind, timeNow. simpl.
    destruct (is_empty jwt) eqn:Hje.
    { destruct jwt; [done | discriminate Hje]. }
    simpl. rewrite accept_returns.
    rewrite fallback_not_admitted;
      [reflexivity | done | apply clockSkew_range | apply Hmono; lia].
  - unfold accepted, index. simpl.
    rewrite lookup_insert_ne by done. by rewrite lookup_insert_eq.
  - eapply get_miss_lookup; [|exact Hmiss]. apply surjective_pairing.
  - intros Habsent. unfold lookup. by rewrite get_absent.
Qed.

Lemma C10_fallback_never_cached_witness :
  phantomAuthCheck ∅ (λ n, 1700000000 * Second + Z.of_nat n) (λ _, Responded response_no_exp)
    object_auth_check world_empty
  = Returned (accepted object_auth_check "eyJhbGciOiJIUzI1NiJ9.e30.c2ln" "OPAQUE1", None)
      {| cStore := ∅; clockReads := 3 |}.
Proof.
  pose proof (C10_fallback_never_cached ∅ (λ n, 1700000000 * Second + Z.of_nat n)
                (λ _, Responded response_no_exp) object_auth_check world_empty
                response_no_exp) as H.
  destruct H as [H _].
  - intros i j Hij. lia.
  - vm_compute. discriminate.
  - vm_compute. discriminate.
  - vm_compute. reflexivity.
  - reflexivity.
  - reflexivity.
  - reflexivity.
  - vm_compute. reflexivity.
  - vm_compute. discriminate.
  - exact H.
Defined.

(** *** The two phases, end to end *)

(** A header without a bearer token is rejected before any lookup. *)
Lemma phantomAuthCheck_missing_bearer environ clock roundTrip obj w :
  extractBearer (index (GetRequest_GetHeaders obj) "Authorization") = EmptyString →
  phantomAuthCheck environ clock roundTrip obj w
  = Returned (unauthorized obj "Missing bearer token", None) w.
Proof. intros H. unfold phantomAuthCheck. rewrite H. reflexivity. Qed.

(** Phase 2 without the JWT of phase 1 is rejected. *)
Lemma injectJwtPostKeyAuth_missing_jwt obj w :
  index (Metadata obj) "phantom_jwt" = EmptyString →
  injectJwtPostKeyAuth obj w
  = Returned (unauthorized obj "JWT missing post-auth", None) w.
Proof.
  unfold injectJwtPostKeyAuth, index. intros H.
  destruct (Metadata obj); rewrite ?H; reflexivity.
Qed.

(** Phase 2 with a JWT and a request sets the outbound header, over any
    header set before. *)
Lemma injectJwtPostKeyAuth_sets_header obj w req jwt :
  Request obj = Some req →
  index (Metadata obj) "phantom_jwt" = jwt → jwt ≠ EmptyString →
  ∃ o req',
    injectJwtPostKeyAuth obj w = Returned (o, None) w
    ∧ Request o = Some req'
    ∧ index (SetHeaders req') "Authorization" = "Bearer " +:+ jwt
    ∧ ReturnOverrides_ req' = ReturnOverrides_ req.
Proof.
  unfold injectJwtPostKeyAuth, index. intros Hreq Hjwt Hne. rewrite Hreq.
  destruct (Metadata obj) as [m|]; [|done]. rewrite Hjwt.
  destruct jwt; [done|]. simpl.
  eexists _, _. repeat split. simpl. by rewrite lookup_insert_eq.
Qed.

(** X24.  With a request record, no hook name makes the dispatcher
    panic, and the error it returns is always nil. *)
Lemma Dispatch_returns environ clock roundTrip obj w :
  is_Some (Request obj) →
  ∃ o w', Dispatch environ clock roundTrip obj w = Returned (o, None) w'.
Proof.
  intros Hreq. unfold Dispatch. repeat case_decide.
  - apply phantomAuthCheck_returns.
  - destruct (injectJwtPostKeyAuth_returns obj w) as [o Ho]; eauto.
  - unfold ret. eauto.
Qed.

(** A first request with [Bearer OPAQUE1]: the introspection answers 200
    with a token that expires in 120 seconds; the request is accepted and
    the token is cached until 30 seconds before its expiry. *)
Example first_request_accepted :
  phantomAuthCheck ∅ clock_1700000000 (λ _, Responded response_token)
    object_auth_check world_empty
  = Returned (accepted object_auth_check token_exp_120 "OPAQUE1", None) world_cached.
Proof. vm_compute. reflexivity. Qed.

(** A second request with the same token is served from the cache: the
    outcome does not depend on the exchange. *)
Example second_request_from_cache (roundTrip : string → exchange) :
  phantomAuthCheck ∅ clock_1700000000 roundTrip object_auth_check world_cached
  = Returned (accepted object_auth_check token_exp_120 "OPAQUE1", None)
      {| cStore := cStore world_cached; clockReads := 3 |}.
Proof. vm_compute. reflexivity. Qed.

(** A 200 response whose body is not a token of three segments is the
    inactive token. *)
Example inactive_token_rejected :
  phantomAuthCheck ∅ clock_1700000000
    (λ _, Responded {| StatusCode := 200; Body := EmptyString; BodyErr := None |})
    object_auth_check world_empty
  = Returned (unauthorized object_auth_check "Token inactive or invalid", None)
      {| cStore := ∅; clockReads := 1 |}.
Proof. vm_compute. reflexivity. Qed.

(** ** Key derivation *)

Example sha256Hex_empty :
  sha256Hex EmptyString
  = "e3b0c44298fc1c149afbf4c8996fb92427ae41e4649b934ca495991b7852b855".
Proof. vm_compute. reflexivity. Qed.

Example sha256Hex_abc :
  sha256Hex "abc"
  = "ba7816bf8f01cfea414140de5dae2223b00361a396177a9cb410ff61f20015ad".
Proof. vm_compute. reflexivity. Qed.

Example sha256Hex_two_blocks :
  sha256Hex "abcdbcdecdefdefgefghfghighijhijkijkljklmklmnlmnomnopnopq"
  = "248d6a61d20638b8e5c026930c3e6039a33ce45964ff2167f6ecedd419db06c1".
Proof. vm_compute. reflexivity. Qed.

(** ** The library models on sample inputs *)

(** The payloads, in order: a fraction; an escaped field name and an
    exponent; a negative number; a number beyond [int64]; a number beyond
    [float64]; a truth value; [null] as the value; white space around the
    tokens; a trailing comma; a leading zero; [null] as the record; an
    array as the record; two fields of one name. *)
Example parseJWTExp_payloads :
  exp_of "eyJleHAiOjE3MDAwMDAwMDAuOX0" = (Unix 1700000000, None)
  ∧ exp_of "eyJcdTAwNjV4cCI6MS43ZTl9" = (Unix 1700000000, None)
  ∧ exp_of "eyJleHAiOi0xLjV9" = (Unix (-1), None)
  ∧ exp_of "eyJleHAiOjFlMzAwfQ" = (Unix minInt64, None)
  ∧ exp_of "eyJleHAiOjFlNDAwfQ" = (GoTime.zero, Some PayloadJSON)
  ∧ exp_of "eyJleHAiOnRydWV9" = (GoTime.zero, Some ExpTypeUnsupported)
  ∧ exp_of "eyJleHAiOm51bGx9" = (GoTime.zero, Some ExpTypeUnsupported)
  ∧ exp_of "IHsiZXhwIiA6IDE3IH0g" = (Unix 17, None)
  ∧ exp_of "eyJleHAiOjE3LH0" = (GoTime.zero, Some PayloadJSON)
  ∧ exp_of "eyJleHAiOjAxN30" = (GoTime.zero, Some PayloadJSON)
  ∧ exp_of "bnVsbA" = (GoTime.zero, Some NoExpClaim)
  ∧ exp_of "WzFd" = (GoTime.zero, Some PayloadJSON)
  ∧ ((base64.RawURLEncoding_DecodeString "eyJhIjoxLCJhIjoyfQ" ≫= json.Unmarshal)
       ≫= (.!! "a"))
    = Some (json.Float64 (float64.of_decimal false 2 0)).
Proof. repeat split; vm_compute; reflexivity. Qed.

Example float64_of_decimal_samples :
  float64.of_decimal false 1 (-1) = S754_finite false 7205759403792794 (-56)
  ∧ float64.of_decimal false 1 23 = S754_finite false 5960464477539062 24
  ∧ float64.of_decimal false 9007199254740993 0 = S754_finite false 4503599627370496 1
  ∧ float64.of_decimal false 5 (-324) = S754_finite false 1 (-1074)
  ∧ float64.of_decimal false 2 (-324) = S754_zero false
  ∧ float64.of_decimal true 17976931348623157 292
    = S754_finite true 9007199254740991 971
  ∧ float64.of_decimal false 17976931348623159 292 = S754_infinity false.
Proof. repeat split; vm_compute; reflexivity. Qed.

Example Atoi_samples :
  strconv.Atoi "-12" = Some (-12)
  ∧ strconv.Atoi "+7" = Some 7
  ∧ strconv.Atoi "-0" = Some 0
  ∧ strconv.Atoi "007" = Some 7
  ∧ strconv.Atoi EmptyString = None
  ∧ strconv.Atoi "-" = None
  ∧ strconv.Atoi " 1" = None
  ∧ strconv.Atoi "1_0" = None
  ∧ strconv.Atoi "9223372036854775807" = Some maxInt64
  ∧ strconv.Atoi "9223372036854775808" = None
  ∧ strconv.Atoi "-9223372036854775808" = Some minInt64.
Proof. repeat split; vm_compute; reflexivity. Qed.

(** White space of more than one byte is trimmed like the ASCII one, and
    a byte that is not the start of a rune is kept. *)
Example TrimSpace_samples :
  GoStrings.TrimSpace (GoStrings.of_bytes [194; 160; 32; 120; 32; 121; 226; 128; 138; 10]%N)
  = "x y"
  ∧ GoStrings.TrimSpace (GoStrings.of_bytes [11; 12; 120; 227; 128; 128]%N) = "x"
  ∧ GoStrings.TrimSpace (GoStrings.of_bytes [32; 128; 32]%N) = GoStrings.of_bytes [128]%N
  ∧ GoStrings.TrimSpace (GoStrings.of_bytes [32; 9; 13; 10]%N) = EmptyString.
Proof. repeat split; vm_compute; reflexivity. Qed.

(** The scheme needs white space after it, and the token is what is
    left of the rest after trimming. *)
Example extractBearer_samples :
  extractBearer "Bearer" = EmptyString
  ∧ extractBearer "Bearerabc" = EmptyString
  ∧ extractBearer "  BEARER  a b  " = "a b"
  ∧ extractBearer "Bearer  " = EmptyString
  ∧ extractBearer "x Bearer abc" = EmptyString.
Proof. repeat split; vm_compute; reflexivity. Qed.

(** ** More on the cache *)

(** X1.  A hit is sound: when [get] reports found, the map holds the
    returned JWT under the key with an expiry that has not passed, and
    the lookup leaves the map as it is. *)
Theorem get_hit_sound (now : Instant) (key jwt : string)
    (data data' : gmap string cacheEntry) :
  jwtCache.get now key data = ((jwt, true), data') →
  data' = data ∧ ∃ exp, data !! key = Some (CacheEntry jwt exp) ∧ now ≤ exp.
Proof.
  unfold jwtCache.get. destruct (data !! key) as [[j e]|] eqn:Hk; simpl.
  - destruct (After now e) eqn:Ha; intros [= <- <-].
    split; [done|]. exists e. split; [done|].
    destruct (Z.lt_ge_cases e now) as [Hlt|]; [|lia].
    apply After_spec in Hlt. congruence.
  - intros [= _ _].
Qed.

Lemma get_hit_sound_witness :
  let data : gmap string cacheEntry := {[ "k" := CacheEntry "J" 100 ]} in
  data = data ∧ ∃ exp, data !! "k" = Some (CacheEntry "J" exp) ∧ 100 ≤ exp.
Proof.
  apply (get_hit_sound 100 "k" "J" {[ "k" := CacheEntry "J" 100 ]}).
  vm_compute. reflexivity.
Defined.

(** A lookup only removes. *)
Lemma get_subseteq (now : Instant) (key : string) (data : gmap string cacheEntry) :
  (jwtCache.get now key data).2 ⊆ data.
Proof.
  unfold jwtCache.get. destruct (data !! key) as [ce|]; simpl; [|done].
  destruct (After now (Expires ce)); simpl; [apply delete_subseteq | done].
Qed.

(** X2.  A lookup touches its own key at most: it never adds or alters
    an entry, it leaves every other key alone, and after a miss the key
    is not in the map (an expired entry is removed on the way). *)
Theorem get_frame (now : Instant) (key : string) (data : gmap string cacheEntry) :
  let r := jwtCache.get now key data in
  r.2 ⊆ data
  ∧ (∀ k, k ≠ key → r.2 !! k = data !! k)
  ∧ (r.1.2 = false → r.1.1 = EmptyString ∧ r.2 !! key = None).
Proof.
  unfold jwtCache.get. destruct (data !! key) as [ce|] eqn:Hk; simpl.
  - destruct (After now (Expires ce)); simpl.
    + repeat split; try done.
      * apply delete_subseteq.
      * intros k Hne. by apply lookup_delete_ne.
      * apply lookup_delete_eq.
    + repeat split; done.
  - repeat split; done.
Qed.

Lemma get_frame_witness :
  let data : gmap string cacheEntry :=
    <["a" := CacheEntry "J1" 50]> {[ "b" := CacheEntry "J2" 500 ]} in
  (jwtCache.get 100 "a" data).2 !! "b" = data !! "b"
  ∧ (jwtCache.get 100 "a" data).2 !! "a" = None.
Proof.
  pose proof (get_frame 100 "a"
                (<["a" := CacheEntry "J1" 50]> {[ "b" := CacheEntry "J2" 500 ]}))
    as (_ & Hother & Hmiss).
  split.
  - apply Hother. discriminate.
  - apply Hmiss. vm_compute. reflexivity.
Defined.

(** X3.  What [set] admits, [get] serves: an entry whose expiry lies
    beyond now plus the margin is found under its key at every instant
    up to its expiry, whatever the key held before, and no other key
    changes. *)
Theorem set_then_get (skew : Duration) (now t exp : Instant) (key jwt : string)
    (data : gmap string cacheEntry) :
  now + skew < exp → t ≤ exp →
  let data' := jwtCache.set skew now key jwt exp data in
  jwtCache.get t key data' = ((jwt, true), data')
  ∧ ∀ k, k ≠ key → data' !! k = data !! k.
Proof.
  intros Hadm Ht. simpl. rewrite set_stores by done. split.
  - apply get_found with (exp := exp); [apply lookup_insert_eq | done].
  - intros k Hne. by apply lookup_insert_ne.
Qed.

Lemma set_then_get_witness :
  let data' := jwtCache.set 30 0 "k" "J" 100 {[ "k" := CacheEntry "old" 5 ]} in
  jwtCache.get 100 "k" data' = (("J", true), data').
Proof.
  apply (set_then_get 30 0 100 100 "k" "J" {[ "k" := CacheEntry "old" 5 ]}); lia.
Defined.

(** X4.  The sweep does not depend on the order in which Go ranges over
    the map, and a sweep after a sweep is the later sweep alone. *)
Theorem purgeExpired_absorbs (ord ord' : MapOrder) (now now' : Instant)
    (data : gmap string cacheEntry) :
  jwtCache.purgeExpired ord now data = jwtCache.purgeExpired ord' now data
  ∧ (now ≤ now' →
     jwtCache.purgeExpired ord' now' (jwtCache.purgeExpired ord now data)
     = jwtCache.purgeExpired ord' now' data).
Proof.
  split.
  - apply map_eq. intros k. by rewrite !purgeExpired_lookup.
  - intros Hle. apply map_eq. intros k. rewrite !purgeExpired_lookup.
    destruct (data !! k) as [v|]; [|done].
    destruct (After now (Expires v)) eqn:Ha; [|done].
    destruct (After now' (Expires v)) eqn:Hb; [done|].
    destruct (Z.lt_ge_cases (Expires v) now') as [Hlt|Hge].
    + apply After_spec in Hlt. congruence.
    + destruct (Z.lt_ge_cases (Expires v) now) as [Hlt|Hge'].
      * lia.
      * assert (After now (Expires v) = false); [|congruence].
        destruct (After now (Expires v)) eqn:Hc; [|done].
        apply After_spec in Hc. lia.
Qed.

Lemma purgeExpired_absorbs_witness :
  let data : gmap string cacheEntry :=
    <["a" := CacheEntry "J1" 50]> {[ "b" := CacheEntry "J2" 500 ]} in
  jwtCache.purgeExpired listing_order 200 (jwtCache.purgeExpired listing_order 100 data)
  = jwtCache.purgeExpired listing_order 200 data.
Proof.
  apply (purgeExpired_absorbs listing_order listing_order 100 200). lia.
Defined.

(** The second loop of [enforceCap] only deletes. *)
Lemma drop_any_subseteq toDrop keys (data : gmap string cacheEntry) dropped :
  (jwtCache.drop_any toDrop keys data dropped).1 ⊆ data.
Proof.
  revert data dropped. induction keys as [|k keys IH]; intros data dropped; simpl.
  - done.
  - destruct (toDrop <=? dropped); simpl; [done|].
    etrans; [apply IH|]. apply delete_subseteq.
Qed.

Lemma enforceCap_subseteq capacity ord1 ord2 now (data : gmap string cacheEntry) :
  jwtCache.enforceCap capacity ord1 ord2 now data ⊆ data.
Proof.
  unfold jwtCache.enforceCap.
  destruct (capacity <=? 0); [done|].
  destruct (Z.of_nat (size data) <=? capacity); [done|].
  match goal with
  | |- context [jwtCache.drop_nearly_dead ?n ?t ?i ?d ?z] =>
      pose proof (drop_nearly_dead_subseteq n t i d z) as Hsub;
      destruct (jwtCache.drop_nearly_dead n t i d z) as [data1 dropped]
  end.
  simpl in Hsub. etrans; [apply drop_any_subseteq | done].
Qed.

(** X5.  Capacity enforcement evicts what is needed and no more: it
    never adds or alters an entry; a cache within its capacity is left
    as it is; a cache over a positive capacity is cut to exactly the
    capacity. *)
Theorem enforceCap_exact (capacity : Z) (ord1 ord2 : MapOrder) (now : Instant)
    (data : gmap string cacheEntry) :
  let data' := jwtCache.enforceCap capacity ord1 ord2 now data in
  data' ⊆ data
  ∧ (Z.of_nat (size data) ≤ capacity → data' = data)
  ∧ (0 < capacity < Z.of_nat (size data) → Z.of_nat (size data') = capacity).
Proof.
  simpl. split; [apply enforceCap_subseteq|]. split.
  - intros Hle. unfold jwtCache.enforceCap.
    destruct (capacity <=? 0); [done|].
    destruct (Z.of_nat (size data) <=? capacity) eqn:E; [done|].
    apply Z.leb_gt in E. lia.
  - intros [Hpos Hover]. unfold jwtCache.enforceCap.
    destruct (capacity <=? 0) eqn:H0; [apply Z.leb_le in H0; lia|].
    destruct (Z.of_nat (size data) <=? capacity) eqn:Hn; [apply Z.leb_le in Hn; lia|].
    set (toDrop := Z.of_nat (size data) - capacity).
    set (items := (λ kv : string * cacheEntry, (kv.1, Expires kv.2)) <$> ord1 data).
    assert (items.*1 = (ord1 data).*1) as Hkeys.
    { unfold items. rewrite <- list_fmap_compose. done. }
    pose proof (drop_nearly_dead_size now toDrop items data 0) as H1.
    destruct (jwtCache.drop_nearly_dead now toDrop items data 0) as [data1 dropped] eqn:E.
    simpl in H1. destruct H1 as [Hd Hs].
    { rewrite Hkeys. apply range_keys_NoDup. }
    { intros k. rewrite Hkeys. apply range_keys_present. }
    { unfold toDrop. lia. }
    rewrite drop_any_size.
    + unfold toDrop in *. lia.
    + apply range_keys_NoDup.
    + apply range_keys_present.
    + lia.
    + rewrite length_fmap, range_length. unfold toDrop in *. lia.
Qed.

Lemma enforceCap_exact_witness :
  let data : gmap string cacheEntry :=
    <["a" := CacheEntry "J1" 1000]>
      (<["b" := CacheEntry "J2" 2000]> {[ "c" := CacheEntry "J3" 3000 ]}) in
  Z.of_nat (size (jwtCache.enforceCap 2 listing_order listing_order 0 data)) = 2
  ∧ jwtCache.enforceCap 3 listing_order listing_order 0 data = data.
Proof.
  pose proof (enforceCap_exact 2 listing_order listing_order 0
    (<["a" := CacheEntry "J1" 1000]>
      (<["b" := CacheEntry "J2" 2000]> {[ "c" := CacheEntry "J3" 3000 ]})))
    as (_ & _ & Hcut).
  pose proof (enforceCap_exact 3 listing_order listing_order 0
    (<["a" := CacheEntry "J1" 1000]>
      (<["b" := CacheEntry "J2" 2000]> {[ "c" := CacheEntry "J3" 3000 ]})))
    as (_ & Hkeep & _).
  split.
  - apply Hcut. vm_compute. split; reflexivity.
  - apply Hkeep. vm_compute. discriminate.
Defined.

(** *** Which entries capacity enforcement evicts *)

(** The first loop counts the nearly dead entries it meets, up to
    [toDrop]. *)
Lemma drop_nearly_dead_count now toDrop (l : list (string * cacheEntry))
    (data : gmap string cacheEntry) dropped :
  dropped ≤ toDrop →
  (jwtCache.drop_nearly_dead now toDrop (expiry_of <$> l) data dropped).2
  = Z.min toDrop
      (dropped + Z.of_nat (length (filter (λ kv : string * cacheEntry,
                                     nearly_dead now (Expires kv.2) = true) l))).
Proof.
  revert data dropped. induction l as [|[k v] l IH]; intros data dropped Hle; simpl.
  - lia.
  - rewrite filter_cons. simpl.
    destruct (toDrop <=? dropped) eqn:Hfull; simpl.
    + apply Z.leb_le in Hfull. case_decide; simpl; lia.
    + apply Z.leb_gt in Hfull. fold (nearly_dead now (Expires v)).
      destruct (nearly_dead now (Expires v)) eqn:Hnd.
      * rewrite decide_True by done. rewrite IH by lia. simpl. lia.
      * rewrite decide_False by done. by rewrite IH by lia.
Qed.

(** The first loop leaves alone a key whose entries in the snapshot are
    all far from their expiry. *)
Lemma drop_nearly_dead_keeps now toDrop (items : list (string * Instant))
    (data : gmap string cacheEntry) dropped k :
  (∀ e, (k, e) ∈ items → nearly_dead now e = false) →
  (jwtCache.drop_nearly_dead now toDrop items data dropped).1 !! k = data !! k.
Proof.
  revert data dropped. induction items as [|[k' e'] items IH];
    intros data dropped Hfar; simpl.
  - done.
  - destruct (toDrop <=? dropped); simpl; [done|].
    assert (∀ e, (k, e) ∈ items → nearly_dead now e = false) as Hfar'.
    { intros e He. apply Hfar. rewrite elem_of_cons. by right. }
    fold (nearly_dead now e').
    destruct (nearly_dead now e') eqn:Hnd.
    + rewrite IH by done. apply lookup_delete_ne. intros ->.
      rewrite Hfar in Hnd; [done|]. rewrite elem_of_cons. by left.
    + by apply IH.
Qed.

(** Once the counter has reached [toDrop], the second loop drops
    nothing. *)
Lemma drop_any_full toDrop keys (data : gmap string cacheEntry) dropped :
  toDrop ≤ dropped → (jwtCache.drop_any toDrop keys data dropped).1 = data.
Proof.
  intros H. destruct keys as [|k keys]; simpl; [done|].
  apply Z.leb_le in H. by rewrite H.
Qed.

(** X6.  Nearly dead entries go first: when the entries that have
    expired or expire within two minutes are at least as many as the
    cache is over its capacity, capacity enforcement evicts none of the
    other entries, in whatever order the loops visit the map. *)
Theorem enforceCap_spares_healthy (capacity : Z) (ord1 ord2 : MapOrder)
    (now : Instant) (data : gmap string cacheEntry) (k : string) (v : cacheEntry) :
  Z.of_nat (size data) - capacity ≤ Z.of_nat (dead_count now data) →
  data !! k = Some v →
  nearly_dead now (Expires v) = false →
  jwtCache.enforceCap capacity ord1 ord2 now data !! k = Some v.
Proof.
  intros Hcount Hk Hfar. unfold jwtCache.enforceCap.
  destruct (capacity <=? 0); [done|].
  destruct (Z.of_nat (size data) <=? capacity) eqn:Hn; [done|].
  apply Z.leb_gt in Hn.
  set (toDrop := Z.of_nat (size data) - capacity).
  change (λ kv : string * cacheEntry, (kv.1, Expires kv.2)) with expiry_of.
  pose proof (drop_nearly_dead_count now toDrop (ord1 data) data 0) as Hc.
  pose proof (drop_nearly_dead_keeps now toDrop (expiry_of <$> ord1 data) data 0 k) as Hkeep.
  destruct (jwtCache.drop_nearly_dead now toDrop (expiry_of <$> ord1 data) data 0)
    as [data1 dropped] eqn:E.
  simpl in Hc, Hkeep.
  assert (length (filter (λ kv : string * cacheEntry,
                            nearly_dead now (Expires kv.2) = true) (ord1 data))
          = dead_count now data) as Hperm.
  { unfold dead_count. by rewrite (range_of_perm ord1 data). }
  rewrite Hperm in Hc. rewrite Hc by (unfold toDrop; lia).
  rewrite drop_any_full by lia.
  rewrite Hkeep; [done|].
  intros e He. apply list_elem_of_fmap in He as [[k' v'] [[= <- ->] Hin]].
  rewrite (range_of_perm ord1 data) in Hin.
  apply elem_of_map_to_list in Hin. simpl in Hin.
  rewrite Hk in Hin. by injection Hin as <-.
Qed.

Lemma enforceCap_spares_healthy_witness :
  let now := 1700000000 * Second in
  let data : gmap string cacheEntry :=
    <["a" := CacheEntry "J1" (now + 60 * Second)]>
      (<["b" := CacheEntry "J2" (now + 600 * Second)]>
         {[ "c" := CacheEntry "J3" (now + 900 * Second) ]}) in
  jwtCache.enforceCap 2 listing_order listing_order now data !! "b"
  = Some (CacheEntry "J2" (now + 600 * Second)).
Proof.
  apply enforceCap_spares_healthy; vm_compute; first [reflexivity | discriminate].
Defined.

(** X7.  What a round of the janitor leaves: every entry that remains
    was in the map before the round, unaltered, and had not expired when
    the sweep read the clock. *)
Theorem janitor_pass_sweeps (capacity : Z) (ord0 ord1 ord2 : MapOrder)
    (now1 now2 : Instant) (data : gmap string cacheEntry) (k : string) (v : cacheEntry) :
  jwtCache.janitor_pass capacity ord0 ord1 ord2 now1 now2 data !! k = Some v →
  data !! k = Some v ∧ now1 ≤ Expires v.
Proof.
  unfold jwtCache.janitor_pass. intros H.
  eapply lookup_weaken in H; [|apply enforceCap_subseteq].
  rewrite purgeExpired_lookup in H.
  destruct (data !! k) as [v'|]; [|done].
  destruct (After now1 (Expires v')) eqn:Ha; [done|].
  injection H as <-. split; [done|].
  destruct (Z.lt_ge_cases (Expires v') now1) as [Hlt|]; [|lia].
  apply After_spec in Hlt. congruence.
Qed.

Lemma janitor_pass_sweeps_witness :
  let data : gmap string cacheEntry :=
    <["a" := CacheEntry "J1" 50]> {[ "b" := CacheEntry "J2" 500 ]} in
  data !! "b" = Some (CacheEntry "J2" 500) ∧ 100 ≤ Expires (CacheEntry "J2" 500).
Proof.
  apply (janitor_pass_sweeps 10 listing_order listing_order listing_order 100 101
           (<["a" := CacheEntry "J1" 50]> {[ "b" := CacheEntry "J2" 500 ]}) "b").
  vm_compute. reflexivity.
Defined.

(** *** Histories *)

Lemma apply_op_lookup skew capacity op (data : gmap string cacheEntry) k ce :
  apply_op skew capacity op data !! k = Some ce →
  data !! k = Some ce
  ∨ ∃ now, op = OpSet now k (JWT ce) (Expires ce) ∧ now + skew < Expires ce.
Proof.
  destruct op as [now key|now key jwt exp|ord now|ord1 ord2 now]; simpl; intros H.
  - left. eapply lookup_weaken; [exact H|]. apply get_subseteq.
  - unfold jwtCache.set, Add in H.
    destruct (Before (now + skew) exp) eqn:Hb; [|by left].
    apply Before_spec in Hb.
    destruct (decide (key = k)) as [->|Hne].
    + rewrite lookup_insert_eq in H. injection H as <-. right. eauto.
    + rewrite lookup_insert_ne in H by done. by left.
  - left. eapply lookup_weaken; [exact H|]. apply purge_loop_subseteq.
  - left. eapply lookup_weaken; [exact H|]. apply enforceCap_subseteq.
Qed.

Lemma fold_ops_lookup skew capacity ops : ∀ (data : gmap string cacheEntry) k ce,
  fold_left (λ data op, apply_op skew capacity op data) ops data !! k = Some ce →
  data !! k = Some ce
  ∨ ∃ now, OpSet now k (JWT ce) (Expires ce) ∈ ops ∧ now + skew < Expires ce.
Proof.
  induction ops as [|op ops IH]; intros data k ce; simpl.
  - by left.
  - intros H. apply IH in H as [H|(now & Hin & Hadm)].
    + apply apply_op_lookup in H as [H|(now & -> & Hadm)]; [by left|].
      right. exists now. split; [|done]. rewrite elem_of_cons. by left.
    + right. exists now. split; [|done]. rewrite elem_of_cons. by right.
Qed.

(** X8.  The invariant of the cache: after any history of lookups,
    insertions, sweeps and capacity enforcements from the empty map,
    every entry in the map was put there by a [set] whose expiry, less
    the margin, was still ahead of the clock when it was made. *)
Theorem history_entries_admitted (skew : Duration) (capacity : Z)
    (ops : list cacheOp) (k : string) (ce : cacheEntry) :
  history skew capacity ops !! k = Some ce →
  ∃ now, OpSet now k (JWT ce) (Expires ce) ∈ ops ∧ now < Expires ce - skew.
Proof.
  unfold history. intros H.
  apply fold_ops_lookup in H as [H|(now & Hin & Hadm)].
  - by rewrite lookup_empty in H.
  - exists now. split; [done|lia].
Qed.

Lemma history_entries_admitted_witness :
  ∃ now, OpSet now "k" "J" 100
           ∈ [OpSet 0 "k" "J" 100; OpGet 50 "k";
              OpPurgeExpired listing_order 60; OpSet 90 "k" "J2" 110]
         ∧ now < 100 - 30.
Proof.
  apply (history_entries_admitted 30 10
           [OpSet 0 "k" "J" 100; OpGet 50 "k";
            OpPurgeExpired listing_order 60; OpSet 90 "k" "J2" 110]
           "k" (CacheEntry "J" 100)).
  vm_compute. reflexivity.
Defined.

(** ** The settings *)

(** [intFromEnv] answers the default or what the setting reads as,
    and the latter only when it is not negative. *)
Lemma intFromEnv_range (environ : gmap string string) (name : string) (def : Z) :
  intFromEnv environ name def = def
  ∨ (0 ≤ intFromEnv environ name def
     ∧ strconv.Atoi (Getenv environ name) = Some (intFromEnv environ name def)).
Proof.
  unfold intFromEnv.
  destruct (is_empty (Getenv environ name)); [by left|].
  destruct (strconv.Atoi (Getenv environ name)) as [i|]; [|by left].
  destruct (i <? 0) eqn:E; [by left|].
  apply Z.ltb_ge in E. by right.
Qed.

(** X9.  The capacity is never negative: of the two cases of the guard
    of [enforceCap], only zero can occur. *)
Theorem cacheMax_nonneg (environ : gmap string string) : 0 ≤ cacheMax environ.
Proof.
  unfold cacheMax.
  destruct (intFromEnv_range environ "CACHE_MAX_ENTRIES" 10000) as [->|[H _]]; lia.
Qed.

(** X10.  A setting that reads as a number of seconds from 0 to
    9223372036 gives that many seconds, without overflow; a setting that
    is missing, does not read as a number, or is negative gives the
    default. *)
Theorem durationFromEnvSeconds_value (environ : gmap string string)
    (name : string) (def : Z) :
  (∀ i, strconv.Atoi (Getenv environ name) = Some i → 0 ≤ i ≤ 9223372036 →
        durationFromEnvSeconds environ name def = i * Second)
  ∧ (strconv.Atoi (Getenv environ name) = None →
     durationFromEnvSeconds environ name def = wrap64 (def * Second))
  ∧ (∀ i, strconv.Atoi (Getenv environ name) = Some i → i < 0 →
        durationFromEnvSeconds environ name def = wrap64 (def * Second)).
Proof.
  unfold durationFromEnvSeconds. repeat split.
  - intros i Hi Hr. rewrite Hi.
    destruct (is_empty (Getenv environ name)) eqn:He.
    { destruct (Getenv environ name); [|discriminate He]. discriminate Hi. }
    destruct (i <? 0) eqn:E; [apply Z.ltb_lt in E; lia|].
    apply wrap64_small. unfold minInt64, maxInt64, Second. lia.
  - intros ->. by destruct (is_empty _).
  - intros i -> Hneg. apply Z.ltb_lt in Hneg. rewrite Hneg. by destruct (is_empty _).
Qed.

Lemma durationFromEnvSeconds_value_witness :
  durationFromEnvSeconds {[ "CLOCK_SKEW_SECONDS" := "45" ]} "CLOCK_SKEW_SECONDS" 30
  = 45 * Second
  ∧ durationFromEnvSeconds {[ "CLOCK_SKEW_SECONDS" := "soon" ]} "CLOCK_SKEW_SECONDS" 30
    = wrap64 (30 * Second)
  ∧ durationFromEnvSeconds {[ "CLOCK_SKEW_SECONDS" := "-5" ]} "CLOCK_SKEW_SECONDS" 30
    = wrap64 (30 * Second).
Proof.
  split; [|split].
  - apply (proj1 (durationFromEnvSeconds_value _ _ _) 45); [vm_compute; reflexivity | lia].
  - apply (proj1 (proj2 (durationFromEnvSeconds_value _ _ _))). vm_compute. reflexivity.
  - apply (proj2 (proj2 (durationFromEnvSeconds_value _ _ _)) (-5));
      [vm_compute; reflexivity | lia].
Defined.

(** ** Key derivation *)

Lemma round_length st kw : length st = 8%nat → length (sha256.round st kw) = 8%nat.
Proof.
  do 9 (destruct st as [|? st]; try discriminate). reflexivity.
Qed.

Lemma rounds_length l : ∀ st, length st = 8%nat →
  length (fold_left sha256.round l st) = 8%nat.
Proof.
  induction l as [|kw l IH]; intros st H; simpl; [done|].
  apply IH. by apply round_length.
Qed.

Lemma compress_length h block :
  length h = 8%nat → length (sha256.compress h block) = 8%nat.
Proof.
  intros H. unfold sha256.compress.
  rewrite length_zip_with, rounds_length by done. lia.
Qed.

Lemma blocks_length n : ∀ bs h, length h = 8%nat → length (sha256.blocks n bs h) = 8%nat.
Proof.
  induction n as [|n IH]; intros bs h H; simpl; [done|].
  apply IH. by apply compress_length.
Qed.

Lemma be_bytes_4 z :
  length (sha256.be_bytes 4 z) = 4%nat
  ∧ Forall (λ b, 0 ≤ b < 256) (sha256.be_bytes 4 z).
Proof.
  unfold sha256.be_bytes. split; [reflexivity|].
  simpl. repeat constructor; apply Z.mod_pos_bound; lia.
Qed.

Lemma bind_be_bytes_4 (l : list Z) :
  length (l ≫= sha256.be_bytes 4) = (4 * length l)%nat
  ∧ Forall (λ b, 0 ≤ b < 256) (l ≫= sha256.be_bytes 4).
Proof.
  induction l as [|z l [IH1 IH2]]; [by split; [|constructor]|].
  destruct (be_bytes_4 z) as [H1 H2].
  change ((z :: l) ≫= sha256.be_bytes 4)
    with (sha256.be_bytes 4 z ++ (l ≫= sha256.be_bytes 4)).
  split.
  - rewrite length_app, H1, IH1. simpl. lia.
  - by apply Forall_app.
Qed.

Lemma hex_digit_lower z : 0 ≤ z < 16 → is_lower_hex (sha256.hex_digit z) = true.
Proof.
  intros H.
  assert (z ∈ [0;1;2;3;4;5;6;7;8;9;10;11;12;13;14;15]) as Hin.
  { rewrite list_elem_of_In. simpl. lia. }
  repeat (apply elem_of_cons in Hin as [->|Hin]; [reflexivity|]).
  by apply elem_of_nil in Hin.
Qed.

Lemma hex_shape bs :
  Forall (λ b, 0 ≤ b < 256) bs →
  String.length (sha256.hex bs) = (2 * length bs)%nat
  ∧ all_bytes is_lower_hex (sha256.hex bs) = true.
Proof.
  induction bs as [|b bs IH]; intros Hall; [done|].
  apply Forall_cons in Hall as [Hb Hall]. simpl in Hb. destruct (IH Hall) as [IH1 IH2].
  assert (0 ≤ b / 16 < 16) as Hhigh.
  { split; [apply Z.div_pos; lia | apply Z.div_lt_upper_bound; lia]. }
  assert (0 ≤ b mod 16 < 16) as Hlow by (apply Z.mod_pos_bound; lia).
  simpl. split; [rewrite IH1; lia|].
  unfold all_bytes in *. simpl.
  by rewrite (hex_digit_lower _ Hhigh), (hex_digit_lower _ Hlow), IH2.
Qed.

(** X11.  The key of every credential, the empty one included, is 64
    lower-case hexadecimal digits. *)
Theorem sha256Hex_shape (s : string) :
  String.length (sha256Hex s) = 64%nat
  ∧ all_bytes is_lower_hex (sha256Hex s) = true.
Proof.
  unfold sha256Hex, sha256.Sum256.
  match goal with
  | |- context [sha256.blocks ?n ?bs ?h] =>
      pose proof (blocks_length n bs h eq_refl) as Hlen;
      destruct (bind_be_bytes_4 (sha256.blocks n bs h)) as [H1 H2]
  end.
  destruct (hex_shape _ H2) as [H3 H4].
  split; [|done]. rewrite H3, H1, Hlen. reflexivity.
Qed.

(** ** Segments *)

Lemma split_go_length s : ∀ cur,
  Z.of_nat (length (GoStrings.split_go "." s cur)) = countDots s + 1.
Proof.
  induction s as [|c s IH]; intros cur; [done|].
  cbn [GoStrings.split_go countDots]. destruct (Ascii.eqb c ".").
  - cbn [length]. rewrite Nat2Z.inj_succ, IH. lia.
  - rewrite IH. lia.
Qed.

(** X12.  [strings.Split] on the dot gives one segment more than
    [countDots] counts, so the extractor reports a token that is not
    compact exactly for the strings the introspection client turns away
    before it calls the extractor (line 358). *)
Theorem parseJWTExp_not_compact (jwt : string) :
  Z.of_nat (length (GoStrings.Split jwt ".")) = countDots jwt + 1
  ∧ ((parseJWTExp jwt).2 = Some NotCompactJWS ↔ countDots jwt ≠ 2).
Proof.
  split; [apply split_go_length|].
  unfold parseJWTExp. pose proof (split_go_length jwt EmptyString) as Hlen.
  fold (GoStrings.Split jwt ".") in Hlen.
  destruct (length (GoStrings.Split jwt ".") =? 3)%nat eqn:E; simpl.
  - apply Nat.eqb_eq in E. split; [|lia].
    repeat case_match; simpl; discriminate.
  - apply Nat.eqb_neq in E. split; [lia|done].
Qed.

(** ** Trimming *)

Lemma rev_app_length a : ∀ b,
  String.length (String.rev_app a b) = (String.length a + String.length b)%nat.
Proof.
  induction a as [|c a IH]; intros b; simpl; [done|]. rewrite IH. simpl. lia.
Qed.

Lemma rev_length s : String.length (String.rev s) = String.length s.
Proof. unfold String.rev. rewrite rev_app_length. simpl. lia. Qed.

Lemma strip_first_length ps s r :
  GoStrings.strip_first ps s = Some r → (String.length r ≤ String.length s)%nat.
Proof.
  induction ps as [|p ps IH]; simpl; [done|].
  destruct (GoStrings.strip_prefix p s) eqn:E; [|done].
  intros [= <-]. by apply strip_prefix_length in E.
Qed.

Lemma trim_left_fuel_length fuel encs : ∀ s,
  (String.length (GoStrings.trim_left_fuel fuel encs s) ≤ String.length s)%nat.
Proof.
  induction fuel as [|fuel IH]; intros s; simpl; [lia|].
  destruct (GoStrings.strip_first encs s) eqn:E; [|lia].
  apply strip_first_length in E. etrans; [apply IH|done].
Qed.

(** Trimming never lengthens. *)
Lemma TrimSpace_length s :
  (String.length (GoStrings.TrimSpace s) ≤ String.length s)%nat.
Proof.
  unfold GoStrings.TrimSpace, GoStrings.TrimRightSpace, GoStrings.TrimLeftSpace.
  rewrite rev_length.
  etrans; [apply trim_left_fuel_length|]. rewrite rev_length.
  apply trim_left_fuel_length.
Qed.

Lemma substring_length n : ∀ s,
  (String.length (String.substring 0 n s) ≤ n)%nat.
Proof.
  induction n as [|n IH]; intros [|c s]; simpl; try lia.
  specialize (IH s). lia.
Qed.

(** ** The introspection client *)

(** X14.  What the client returns on a response that is not a 200: an
    empty JWT and an error whose text is the status followed by the
    excerpt of the body, which is the first 512 bytes of the body with
    the white space at both ends trimmed, at most 512 bytes; the cache
    and the clock are not touched. *)
Theorem introspect_status_error (clock : nat → Instant) (roundTrip : string → exchange)
    (opaque : string) (resp : Response) (w : World) :
  roundTrip opaque = Responded resp →
  StatusCode resp ≠ 200 →
  let excerpt := GoStrings.TrimSpace (String.substring 0 512 (Body resp)) in
  introspectForJWTAndExp clock roundTrip opaque w
  = Returned (EmptyString, GoTime.zero,
              Some ("introspection status " +:+ pretty (StatusCode resp)
                    +:+ ": " +:+ excerpt)) w
  ∧ (String.length excerpt ≤ 512)%nat.
Proof.
  intros Hrt Hstatus excerpt. split.
  - unfold introspectForJWTAndExp. rewrite Hrt.
    apply Z.eqb_neq in Hstatus. rewrite Hstatus. reflexivity.
  - unfold excerpt. etrans; [apply TrimSpace_length | apply substring_length].
Qed.

Lemma introspect_status_error_witness :
  introspectForJWTAndExp (λ n, Z.of_nat n)
    (λ _, Responded {| StatusCode := 503; Body := " busy "; BodyErr := None |})
    "OPAQUE1" world_empty
  = Returned (EmptyString, GoTime.zero, Some "introspection status 503: busy")
      world_empty
  ∧ (String.length "busy" ≤ 512)%nat.
Proof.
  apply (introspect_status_error (λ n, Z.of_nat n)
           (λ _, Responded {| StatusCode := 503; Body := " busy "; BodyErr := None |})
           "OPAQUE1" {| StatusCode := 503; Body := " busy "; BodyErr := None |}
           world_empty);
    [reflexivity | discriminate].
Defined.

(** X15.  What the client returns, whatever the exchange: the cache is
    never touched; an error comes with an empty JWT; a JWT that is not
    empty is the trimmed body of a 200 response, has exactly two dots,
    and comes with the expiry the extractor reads from it, or, when the
    extractor fails, with the clock reading plus 30 seconds. *)
Theorem introspect_outcomes (clock : nat → Instant) (roundTrip : string → exchange)
    (opaque jwt : string) (exp : Instant) (err : option string) (w w' : World) :
  introspectForJWTAndExp clock roundTrip opaque w = Returned (jwt, exp, err) w' →
  cStore w' = cStore w
  ∧ (err ≠ None → jwt = EmptyString)
  ∧ (jwt ≠ EmptyString →
     ∃ resp,
       roundTrip opaque = Responded resp
       ∧ StatusCode resp = 200
       ∧ jwt = GoStrings.TrimSpace (Body resp)
       ∧ countDots jwt = 2
       ∧ ((parseJWTExp jwt = (exp, None) ∧ w' = w)
          ∨ ((parseJWTExp jwt).2 ≠ None
             ∧ exp = Add (clock (clockReads w)) (30 * Second)
             ∧ clockReads w' = S (clockReads w)))).
Proof.
  unfold introspectForJWTAndExp, bind, timeNow, ret.
  destruct (roundTrip opaque) as [e|e|resp] eqn:Hrt.
  1,2: intros [= <- <- <- <-]; repeat split; done.
  destruct (StatusCode resp =? 200) eqn:Hs; simpl.
  2: intros [= <- <- <- <-]; repeat split; done.
  apply Z.eqb_eq in Hs.
  destruct (BodyErr resp).
  { intros [= <- <- <- <-]; repeat split; done. }
  destruct (countDots (GoStrings.TrimSpace (Body resp)) =? 2) eqn:Hd; simpl.
  2: intros [= <- <- <- <-]; repeat split; done.
  apply Z.eqb_eq in Hd.
  destruct (parseJWTExp (GoStrings.TrimSpace (Body resp))) as [t [pe|]] eqn:Hp.
  - intros [= <- <- <- <-]. repeat split; try done.
    intros _. exists resp. repeat split; try done.
    right. rewrite Hp. by repeat split.
  - intros [= <- <- <- <-]. repeat split; try done.
    intros _. exists resp. repeat split; try done.
    left. by rewrite Hp.
Qed.

Lemma introspect_outcomes_witness :
  cStore world_empty = cStore world_empty
  ∧ (@None string ≠ None → token_exp_120 = EmptyString)
  ∧ (token_exp_120 ≠ EmptyString →
     ∃ resp,
       (λ _ : string, Responded response_token) "OPAQUE1" = Responded resp
       ∧ StatusCode resp = 200
       ∧ token_exp_120 = GoStrings.TrimSpace (Body resp)
       ∧ countDots token_exp_120 = 2
       ∧ ((parseJWTExp token_exp_120 = (Unix 1700000120, None) ∧ world_empty = world_empty)
          ∨ ((parseJWTExp token_exp_120).2 ≠ None
             ∧ Unix 1700000120 = Add (clock_1700000000 (clockReads world_empty)) (30 * Second)
             ∧ clockReads world_empty = S (clockReads world_empty)))).
Proof.
  apply (introspect_outcomes clock_1700000000 (λ _, Responded response_token)
           "OPAQUE1" token_exp_120 (Unix 1700000120) None world_empty world_empty).
  vm_compute. reflexivity.
Defined.

(** ** More on the hooks *)

Lemma is_empty_false s : s ≠ EmptyString → is_empty s = false.
Proof. by destruct s. Qed.

(** The auth check after a lookup that finds the key. *)
Lemma auth_check_on_hit (environ : gmap string string)
    (clock : nat → Instant) (roundTrip : string → exchange)
    (obj : Object) (w : World) (jwt : string) (data' : gmap string cacheEntry) :
  let opaque := extractBearer (index (GetRequest_GetHeaders obj) "Authorization") in
  opaque ≠ EmptyString →
  jwtCache.get (clock (clockReads w)) (sha256Hex opaque) (cStore w) = ((jwt, true), data') →
  phantomAuthCheck environ clock roundTrip obj w
  = Returned (accepted obj jwt opaque, None)
      {| cStore := data'; clockReads := S (clockReads w) |}.
Proof.
  intros opaque Hopaque Hget. unfold phantomAuthCheck. fold opaque.
  rewrite is_empty_false by done.
  unfold bind at 1. unfold cStore_get, bind, timeNow. simpl.
  rewrite Hget. simpl. by rewrite accept_returns.
Qed.

(** The auth check after a lookup that misses and an introspection that
    gives a JWT: the JWT is handed to [set] with the expiry less the
    margin, at the next reading of the clock. *)
Lemma auth_check_on_miss (environ : gmap string string)
    (clock : nat → Instant) (roundTrip : string → exchange)
    (obj : Object) (w w2 : World) (v jwt : string) (exp : Instant)
    (data1 : gmap string cacheEntry) :
  let opaque := extractBearer (index (GetRequest_GetHeaders obj) "Authorization") in
  opaque ≠ EmptyString →
  jwtCache.get (clock (clockReads w)) (sha256Hex opaque) (cStore w) = ((v, false), data1) →
  introspectForJWTAndExp clock roundTrip opaque
    {| cStore := data1; clockReads := S (clockReads w) |}
  = Returned (jwt, exp, None) w2 →
  jwt ≠ EmptyString →
  phantomAuthCheck environ clock roundTrip obj w
  = Returned (accepted obj jwt opaque, None)
      {| cStore := jwtCache.set (clockSkew environ) (clock (clockReads w2))
                     (sha256Hex opaque) jwt
                     (Add exp (wrap64 (- clockSkew environ))) (cStore w2);
         clockReads := S (clockReads w2) |}.
Proof.
  intros opaque Hopaque Hget Hintro Hjwt. unfold phantomAuthCheck. fold opaque.
  rewrite is_empty_false by done.
  unfold bind at 1. unfold cStore_get, bind, timeNow. simpl.
  rewrite Hget. simpl. rewrite Hintro.
  rewrite is_empty_false by done.
  unfold cStore_set, bind, timeNow. simpl. by rewrite accept_returns.
Qed.

(** The introspection of a 200 response whose body is a compact token
    with a readable expiry. *)
Lemma introspect_200 (clock : nat → Instant) (roundTrip : string → exchange)
    (opaque : string) (resp : Response) (exp : Instant) (w : World) :
  roundTrip opaque = Responded resp →
  StatusCode resp = 200 →
  BodyErr resp = None →
  countDots (GoStrings.TrimSpace (Body resp)) = 2 →
  parseJWTExp (GoStrings.TrimSpace (Body resp)) = (exp, None) →
  introspectForJWTAndExp clock roundTrip opaque w
  = Returned (GoStrings.TrimSpace (Body resp), exp, None) w.
Proof.
  intros Hrt Hstatus Hbody Hdots Hexp.
  unfold introspectForJWTAndExp. rewrite Hrt, Hstatus, Hbody. simpl.
  rewrite Hdots. simpl. by rewrite Hexp.
Qed.

(** What [set] does with the expiry less the margin. *)
Lemma set_store_until (environ : gmap string string) (t exp : Instant)
    (key jwt : string) (data : gmap string cacheEntry) :
  0 ≤ clockSkew environ →
  jwtCache.set (clockSkew environ) t key jwt
    (Add exp (wrap64 (- clockSkew environ))) data
  = if decide (t + 2 * clockSkew environ < exp)
    then <[key := CacheEntry jwt (exp - clockSkew environ)]> data
    else data.
Proof.
  intros Hskew. pose proof (clockSkew_range environ) as Hr.
  rewrite wrap64_small by (unfold minInt64, maxInt64 in *; lia).
  unfold Add. case_decide.
  - rewrite set_stores by lia. do 2 f_equal; lia.
  - by rewrite set_skips by lia.
Qed.

Lemma two_dots_not_empty (s : string) : countDots s = 2 → s ≠ EmptyString.
Proof. by intros H ->. Qed.

(** X16.  A cache hit: when the cache holds an entry for the key of the
    presented credential and the entry has not expired, the auth check
    accepts with the cached JWT, whatever the identity provider would
    answer; it reads the clock once and leaves the cache as it is. *)
Theorem phantomAuthCheck_cache_hit (environ : gmap string string)
    (clock : nat → Instant) (roundTrip : string → exchange)
    (obj : Object) (w : World) (jwt : string) (exp : Instant) :
  let opaque := extractBearer (index (GetRequest_GetHeaders obj) "Authorization") in
  opaque ≠ EmptyString →
  cStore w !! sha256Hex opaque = Some (CacheEntry jwt exp) →
  clock (clockReads w) ≤ exp →
  phantomAuthCheck environ clock roundTrip obj w
  = Returned (accepted obj jwt opaque, None)
      {| cStore := cStore w; clockReads := S (clockReads w) |}.
Proof.
  intros opaque Hopaque Hk Hle.
  apply auth_check_on_hit; [done|].
  by apply get_found with (exp := exp).
Qed.

Lemma phantomAuthCheck_cache_hit_witness :
  phantomAuthCheck ∅ clock_1700000000 (λ _, DoFailed "no route to host")
    object_auth_check world_cached
  = Returned (accepted object_auth_check token_exp_120 "OPAQUE1", None)
      {| cStore := cStore world_cached; clockReads := 3 |}.
Proof.
  apply (phantomAuthCheck_cache_hit ∅ clock_1700000000 (λ _, DoFailed "no route to host")
           object_auth_check world_cached token_exp_120 (1700000090 * Second)).
  - vm_compute. discriminate.
  - vm_compute. reflexivity.
  - vm_compute. discriminate.
Defined.

(** X17.  The write-back after a miss: when the introspection answers
    200 with a token whose expiry [exp] can be read (the instant
    [time.Unix] gives, wrap-around included), the request is
    accepted, and the token is stored under the key of the credential
    with the expiry [exp - skew] exactly when the clock, read after the
    exchange, is more than twice the margin ahead of [exp]; otherwise
    the cache stays as the miss left it. *)
Theorem phantomAuthCheck_write_back (environ : gmap string string)
    (clock : nat → Instant) (roundTrip : string → exchange)
    (obj : Object) (w : World) (resp : Response) (exp : Instant) :
  let opaque := extractBearer (index (GetRequest_GetHeaders obj) "Authorization") in
  let key := sha256Hex opaque in
  let jwt := GoStrings.TrimSpace (Body resp) in
  let lookup := jwtCache.get (clock (clockReads w)) key (cStore w) in
  let t := clock (S (clockReads w)) in
  let skew := clockSkew environ in
  opaque ≠ EmptyString →
  lookup.1.2 = false →
  roundTrip opaque = Responded resp →
  StatusCode resp = 200 →
  BodyErr resp = None →
  countDots jwt = 2 →
  parseJWTExp jwt = (exp, None) →
  0 ≤ skew →
  phantomAuthCheck environ clock roundTrip obj w
  = Returned (accepted obj jwt opaque, None)
      {| cStore := if decide (t + 2 * skew < exp)
                   then <[key := CacheEntry jwt (exp - skew)]> lookup.2
                   else lookup.2;
         clockReads := S (S (clockReads w)) |}.
Proof.
  intros opaque key jwt lookup t skew Hopaque Hmiss Hrt Hstatus Hbody Hdots Hexp Hskew.
  destruct lookup as [[v found] data1] eqn:Hlookup. simpl in Hmiss. subst found.
  erewrite auth_check_on_miss;
    [|done|exact Hlookup|by apply introspect_200|by apply two_dots_not_empty].
  simpl. by rewrite set_store_until.
Qed.

Lemma phantomAuthCheck_write_back_witness :
  phantomAuthCheck ∅ clock_1700000000 (λ _, Responded response_token)
    object_auth_check world_empty
  = Returned (accepted object_auth_check token_exp_120 "OPAQUE1", None) world_cached.
Proof.
  pose proof (phantomAuthCheck_write_back ∅ clock_1700000000
                (λ _, Responded response_token) object_auth_check world_empty
                response_token (Unix 1700000120)) as H.
  simpl in H. rewrite H.
  - vm_compute. reflexivity.
  - vm_compute. discriminate.
  - vm_compute. reflexivity.
  - reflexivity.
  - reflexivity.
  - reflexivity.
  - vm_compute. reflexivity.
  - vm_compute. reflexivity.
  - vm_compute. discriminate.
Defined.

(** A token whose [exp] is the largest number of seconds below [2 ^ 63]
    that a float64 holds: [time.Unix] wraps, the expiry lies in the
    past, and the request is accepted while nothing is stored. *)
Example far_future_expiry_not_cached :
  parseJWTExp "eyJhbGciOiJIUzI1NiJ9.eyJleHAiOjkyMjMzNzIwMzY4NTQ3NzQ3ODR9.c2ln"
  = (Unix 9223372036854774784, None)
  ∧ Unix 9223372036854774784 = (9223372036854774784 - 2 ^ 64) * Second
  ∧ phantomAuthCheck ∅ clock_1700000000
      (λ _, Responded
              {| StatusCode := 200;
                 Body := "eyJhbGciOiJIUzI1NiJ9.eyJleHAiOjkyMjMzNzIwMzY4NTQ3NzQ3ODR9.c2ln";
                 BodyErr := None |})
      object_auth_check world_empty
    = Returned
        (accepted object_auth_check
           "eyJhbGciOiJIUzI1NiJ9.eyJleHAiOjkyMjMzNzIwMzY4NTQ3NzQ3ODR9.c2ln" "OPAQUE1",
         None)
        {| cStore := ∅; clockReads := 2 |}.
Proof. repeat split; vm_compute; reflexivity. Qed.

(** X18.  Two requests, one introspection: after a request whose token
    was stored, a second request that presents the same credential while
    the clock has not passed the stored expiry is accepted with the same
    JWT without consulting the identity provider. *)
Theorem second_request_served_from_cache (environ : gmap string string)
    (clock : nat → Instant) (roundTrip : string → exchange)
    (obj obj2 : Object) (w : World) (resp : Response) (exp : Instant) :
  let opaque := extractBearer (index (GetRequest_GetHeaders obj) "Authorization") in
  let key := sha256Hex opaque in
  let jwt := GoStrings.TrimSpace (Body resp) in
  let skew := clockSkew environ in
  opaque ≠ EmptyString →
  (jwtCache.get (clock (clockReads w)) key (cStore w)).1.2 = false →
  roundTrip opaque = Responded resp →
  StatusCode resp = 200 →
  BodyErr resp = None →
  countDots jwt = 2 →
  parseJWTExp jwt = (exp, None) →
  0 ≤ skew →
  clock (S (clockReads w)) + 2 * skew < exp →
  extractBearer (index (GetRequest_GetHeaders obj2) "Authorization") = opaque →
  clock (S (S (clockReads w))) ≤ exp - skew →
  ∃ w1,
    phantomAuthCheck environ clock roundTrip obj w
    = Returned (accepted obj jwt opaque, None) w1
    ∧ ∀ roundTrip2,
        phantomAuthCheck environ clock roundTrip2 obj2 w1
        = Returned (accepted obj2 jwt opaque, None)
            {| cStore := cStore w1; clockReads := S (clockReads w1) |}.
Proof.
  intros opaque key jwt skew Hopaque Hmiss Hrt Hstatus Hbody Hdots Hexp Hskew
    Hadm Hsame Hlater.
  destruct (jwtCache.get (clock (clockReads w)) key (cStore w))
    as [[v found] data1] eqn:Hlookup. simpl in Hmiss. subst found.
  eexists. split.
  - eapply auth_check_on_miss;
      [done|exact Hlookup|by apply introspect_200|by apply two_dots_not_empty].
  - intros roundTrip2. simpl. rewrite set_store_until by done.
    fold skew. rewrite decide_True by done.
    pose proof (auth_check_on_hit environ clock roundTrip2 obj2) as Hhit.
    simpl in Hhit. rewrite Hsame in Hhit. apply Hhit; [done|]. simpl.
    apply get_found with (exp := exp - skew); [|done].
    apply lookup_insert_eq.
Qed.

Lemma second_request_served_from_cache_witness :
  ∃ w1,
    phantomAuthCheck ∅ clock_1700000000 (λ _, Responded response_token)
      object_auth_check world_empty
    = Returned (accepted object_auth_check token_exp_120 "OPAQUE1", None) w1
    ∧ ∀ roundTrip2,
        phantomAuthCheck ∅ clock_1700000000 roundTrip2 object_auth_check w1
        = Returned (accepted object_auth_check token_exp_120 "OPAQUE1", None)
            {| cStore := cStore w1; clockReads := S (clockReads w1) |}.
Proof.
  apply (second_request_served_from_cache ∅ clock_1700000000
           (λ _, Responded response_token) object_auth_check object_auth_check
           world_empty response_token (Unix 1700000120)).
  - vm_compute. discriminate.
  - vm_compute. reflexivity.
  - reflexivity.
  - reflexivity.
  - reflexivity.
  - vm_compute. reflexivity.
  - vm_compute. reflexivity.
  - vm_compute. discriminate.
  - vm_compute. reflexivity.
  - reflexivity.
  - vm_compute. discriminate.
Defined.

(** The two shapes of what the auth check returns. *)
Lemma phantomAuthCheck_shape (environ : gmap string string)
    (clock : nat → Instant) (roundTrip : string → exchange)
    (obj o : Object) (e : option string) (w w' : World) :
  let opaque := extractBearer (index (GetRequest_GetHeaders obj) "Authorization") in
  phantomAuthCheck environ clock roundTrip obj w = Returned (o, e) w' →
  e = None
  ∧ ((∃ msg, o = unauthorized obj msg)
     ∨ (opaque ≠ EmptyString ∧ ∃ jwt, o = accepted obj jwt opaque)).
Proof.
  intros opaque. unfold phantomAuthCheck. fold opaque.
  destruct (is_empty opaque) eqn:Hempty.
  { unfold ret. intros [= <- <- <-]. eauto. }
  assert (opaque ≠ EmptyString) as Hopaque by (intros Hz; by rewrite Hz in Hempty).
  unfold bind, cStore_get, cStore_set, introspectForJWTAndExp, timeNow, ret, bind.
  repeat (case_match; simpl; simplify_eq; rewrite ?accept_returns);
    intros [= <- <- <-]; eauto 10.
Qed.

(** X19.  What an accepted auth check hands on: the request record is
    untouched, the session holds the seven values [ensureSession] sets
    (no rate, no quota), the metadata carries the presented credential
    under [token], and every metadata key other than [token] and
    [phantom_jwt] is as it came in.  What is not accepted is a rejection
    built by [unauthorized]. *)
Theorem phantomAuthCheck_accept_effects (environ : gmap string string)
    (clock : nat → Instant) (roundTrip : string → exchange)
    (obj o : Object) (e : option string) (w w' : World) :
  let opaque := extractBearer (index (GetRequest_GetHeaders obj) "Authorization") in
  phantomAuthCheck environ clock roundTrip obj w = Returned (o, e) w' →
  (∃ msg, o = unauthorized obj msg)
  ∨ (opaque ≠ EmptyString
     ∧ Request o = Request obj
     ∧ Session o = Some session_unlimited
     ∧ index (Metadata o) "token" = opaque
     ∧ ∀ k, k ≠ "token" → k ≠ "phantom_jwt" →
            index (Metadata o) k = index (Metadata obj) k).
Proof.
  intros opaque H. apply phantomAuthCheck_shape in H as [_ [Hrej|[Hopaque [jwt ->]]]].
  - by left.
  - right. fold opaque. repeat split; try done.
    + unfold accepted, index. simpl. by rewrite lookup_insert_eq.
    + intros k Hk1 Hk2. unfold accepted, index. simpl.
      rewrite !lookup_insert_ne by done.
      destruct (Metadata obj); simpl; [done|]. by rewrite lookup_empty.
Qed.

Lemma phantomAuthCheck_accept_effects_witness :
  (∃ msg, accepted object_with_metadata token_exp_120 "OPAQUE1"
          = unauthorized object_with_metadata msg)
  ∨ ("OPAQUE1" ≠ EmptyString
     ∧ Request (accepted object_with_metadata token_exp_120 "OPAQUE1")
       = Request object_with_metadata
     ∧ Session (accepted object_with_metadata token_exp_120 "OPAQUE1")
       = Some session_unlimited
     ∧ index (Metadata (accepted object_with_metadata token_exp_120 "OPAQUE1")) "token"
       = "OPAQUE1"
     ∧ ∀ k, k ≠ "token" → k ≠ "phantom_jwt" →
            index (Metadata (accepted object_with_metadata token_exp_120 "OPAQUE1")) k
            = index (Metadata object_with_metadata) k).
Proof.
  apply (phantomAuthCheck_accept_effects ∅ clock_1700000000
           (λ _, Responded response_token) object_with_metadata _ None
           world_empty world_cached).
  vm_compute. reflexivity.
Defined.

(** X20.  What the auth check writes: an entry that is in the cache
    after the hook and was not there before is under the key of the
    presented credential, holds the trimmed body of a 200 response, a
    string with exactly two dots, and the request was accepted with it. *)
Theorem phantomAuthCheck_cache_writes (environ : gmap string string)
    (clock : nat → Instant) (roundTrip : string → exchange)
    (obj o : Object) (e : option string) (w w' : World) (k : string) (ce : cacheEntry) :
  let opaque := extractBearer (index (GetRequest_GetHeaders obj) "Authorization") in
  phantomAuthCheck environ clock roundTrip obj w = Returned (o, e) w' →
  cStore w' !! k = Some ce →
  cStore w !! k = Some ce
  ∨ (k = sha256Hex opaque
     ∧ o = accepted obj (JWT ce) opaque
     ∧ countDots (JWT ce) = 2
     ∧ ∃ resp, roundTrip opaque = Responded resp
               ∧ StatusCode resp = 200
               ∧ JWT ce = GoStrings.TrimSpace (Body resp)).
Proof.
  intros opaque. unfold phantomAuthCheck. fold opaque.
  destruct (is_empty opaque) eqn:Hempty.
  { unfold ret. intros [= <- <- <-]. by left. }
  unfold bind at 1. unfold cStore_get, bind, timeNow. simpl.
  pose proof (get_subseteq (clock (clockReads w)) (sha256Hex opaque) (cStore w)) as Hsub.
  destruct (jwtCache.get (clock (clockReads w)) (sha256Hex opaque) (cStore w))
    as [[v found] data1] eqn:Hget.
  simpl in Hsub. simpl. destruct found.
  { rewrite accept_returns. intros [= <- <- <-]. simpl. intros Hk. left.
    by eapply lookup_weaken. }
  unfold introspectForJWTAndExp, bind.
  destruct (roundTrip opaque) as [err|err|resp] eqn:Hrt.
  1,2: unfold ret; intros [= <- <- <-]; simpl; intros Hk; left; by eapply lookup_weaken.
  destruct (StatusCode resp =? 200) eqn:Hs; simpl.
  2: unfold ret; intros [= <- <- <-]; simpl; intros Hk; left; by eapply lookup_weaken.
  apply Z.eqb_eq in Hs.
  destruct (BodyErr resp).
  { unfold ret; intros [= <- <- <-]; simpl; intros Hk; left; by eapply lookup_weaken. }
  destruct (countDots (GoStrings.TrimSpace (Body resp)) =? 2) eqn:Hd; simpl.
  2: unfold ret; intros [= <- <- <-]; simpl; intros Hk; left; by eapply lookup_weaken.
  apply Z.eqb_eq in Hd.
  assert (is_empty (GoStrings.TrimSpace (Body resp)) = false) as Hne.
  { destruct (GoStrings.TrimSpace (Body resp)); [discriminate Hd|done]. }
  assert (∀ skew now exp n,
    accept obj (GoStrings.TrimSpace (Body resp)) opaque
      {| cStore := jwtCache.set skew now (sha256Hex opaque)
                     (GoStrings.TrimSpace (Body resp)) exp data1;
         clockReads := n |} = Returned (o, e) w' →
    cStore w' !! k = Some ce →
    cStore w !! k = Some ce
    ∨ k = sha256Hex opaque
      ∧ o = accepted obj (JWT ce) opaque
      ∧ countDots (JWT ce) = 2
      ∧ (∃ resp0, Responded resp = Responded resp0
                  ∧ StatusCode resp0 = 200
                  ∧ JWT ce = GoStrings.TrimSpace (Body resp0))) as Hstore.
  { intros skew now exp n. rewrite accept_returns. intros [= <- <- <-]. simpl.
    unfold jwtCache.set. destruct (Before _ exp); [|intros Hk; left; by eapply lookup_weaken].
    destruct (decide (k = sha256Hex opaque)) as [->|Hne'].
    - rewrite lookup_insert_eq. intros [= <-]. right. simpl. eauto 10.
    - rewrite lookup_insert_ne by done. intros Hk; left; by eapply lookup_weaken. }
  destruct (parseJWTExp (GoStrings.TrimSpace (Body resp))) as [t [pe|]] eqn:Hp;
    unfold ret, timeNow, cStore_set, bind, timeNow; simpl; rewrite Hne; apply Hstore.
Qed.

Lemma phantomAuthCheck_cache_writes_witness :
  cStore world_empty !! sha256Hex "OPAQUE1" = Some (CacheEntry token_exp_120 (1700000090 * Second))
  ∨ (sha256Hex "OPAQUE1" = sha256Hex "OPAQUE1"
     ∧ accepted object_auth_check token_exp_120 "OPAQUE1"
       = accepted object_auth_check token_exp_120 "OPAQUE1"
     ∧ countDots token_exp_120 = 2
     ∧ ∃ resp, (λ _ : string, Responded response_token) "OPAQUE1" = Responded resp
               ∧ StatusCode resp = 200
               ∧ token_exp_120 = GoStrings.TrimSpace (Body resp)).
Proof.
  apply (phantomAuthCheck_cache_writes ∅ clock_1700000000 (λ _, Responded response_token)
           object_auth_check _ None world_empty world_cached
           (sha256Hex "OPAQUE1") (CacheEntry token_exp_120 (1700000090 * Second))).
  - vm_compute. reflexivity.
  - vm_compute. reflexivity.
Defined.

(** X21.  Phase 2 after phase 1: on the object the auth check returns,
    accepted or rejected, the inject hook does not panic; and when the
    object carries a JWT, the outbound [Authorization] header is the
    word Bearer followed by it. *)
Theorem inject_after_auth_check (environ : gmap string string)
    (clock : nat → Instant) (roundTrip : string → exchange)
    (obj o : Object) (e : option string) (w w' : World) :
  phantomAuthCheck environ clock roundTrip obj w = Returned (o, e) w' →
  ∃ o2,
    injectJwtPostKeyAuth o w' = Returned (o2, None) w'
    ∧ (index (Metadata o) "phantom_jwt" ≠ EmptyString →
       index (outbound_headers o2) "Authorization"
       = "Bearer " +:+ index (Metadata o) "phantom_jwt").
Proof.
  intros H.
  assert (is_Some (Request o)) as [req Hreq].
  { apply phantomAuthCheck_shape in H as [_ [[msg ->]|[Hopaque [jwt ->]]]].
    - unfold unauthorized. simpl. eauto.
    - simpl. destruct (Request obj) as [r|] eqn:Hr; [eauto|].
      exfalso. apply Hopaque. unfold GetRequest_GetHeaders. rewrite Hr. reflexivity. }
  destruct (decide (index (Metadata o) "phantom_jwt" = EmptyString)) as [Hnone|Hsome].
  - rewrite injectJwtPostKeyAuth_missing_jwt by done.
    eexists. split; [reflexivity|]. intros Hc. by destruct Hc.
  - destruct (injectJwtPostKeyAuth_sets_header o w' req _ Hreq eq_refl Hsome)
      as (o2 & req2 & Hrun & Hreq2 & Hauth & _).
    exists o2. split; [done|]. intros _.
    unfold outbound_headers. by rewrite Hreq2.
Qed.

Lemma inject_after_auth_check_witness :
  ∃ o2,
    injectJwtPostKeyAuth (accepted object_auth_check token_exp_120 "OPAQUE1") world_cached
    = Returned (o2, None) world_cached
    ∧ (index (Metadata (accepted object_auth_check token_exp_120 "OPAQUE1")) "phantom_jwt"
       ≠ EmptyString →
       index (outbound_headers o2) "Authorization"
       = "Bearer " +:+
         index (Metadata (accepted object_auth_check token_exp_120 "OPAQUE1")) "phantom_jwt").
Proof.
  apply (inject_after_auth_check ∅ clock_1700000000 (λ _, Responded response_token)
           object_auth_check _ None world_empty world_cached).
  vm_compute. reflexivity.
Defined.

(** X23.  Rejecting twice is rejecting with the last reason; and a
    rejection keeps what the object carried: its name, session and
    metadata, the inbound headers, the headers to set, and every
    override header but [WWW-Authenticate]. *)
Theorem unauthorized_last_wins (obj : Object) (first last : string) :
  unauthorized (unauthorized obj first) last = unauthorized obj last
  ∧ HookName (unauthorized obj last) = HookName obj
  ∧ Session (unauthorized obj last) = Session obj
  ∧ Metadata (unauthorized obj last) = Metadata obj
  ∧ GetRequest_GetHeaders (unauthorized obj last) = GetRequest_GetHeaders obj
  ∧ outbound_headers (unauthorized obj last) = outbound_headers obj
  ∧ ∀ k, k ≠ "WWW-Authenticate" →
         index (override_headers (unauthorized obj last)) k
         = index (override_headers obj) k.
Proof.
  unfold unauthorized, GetRequest_GetHeaders, outbound_headers, override_headers, index.
  simpl. split; [|repeat split].
  - by rewrite insert_insert_eq.
  - by destruct (Request obj).
  - by destruct (Request obj).
  - intros k Hk. rewrite lookup_insert_ne by done.
    destruct (Request obj) as [req|]; simpl; [|by rewrite lookup_empty].
    destruct (ReturnOverrides_ req) as [ro|]; simpl; [|by rewrite lookup_empty].
    destruct (ReturnOverrides_Headers ro); simpl; [done|]. by rewrite lookup_empty.
Qed.

Lemma unauthorized_last_wins_witness :
  index (override_headers (unauthorized object_auth_check "Token inactive or invalid"))
    "Retry-After"
  = index (override_headers object_auth_check) "Retry-After".
Proof.
  apply (unauthorized_last_wins object_auth_check "Missing bearer token"
           "Token inactive or invalid").
  discriminate.
Defined.

(** X22.  What the inject hook changes: with a request record and a JWT
    in the metadata, it sets the outbound [Authorization] header to the
    word Bearer and the JWT, over any value set before, and nothing
    else: the other headers to set, the inbound headers, the override
    record, the session, the metadata and the world stay as they are. *)
Theorem inject_sets_authorization_only (obj : Object) (w : World)
    (req : MiniRequestObject) :
  Request obj = Some req →
  index (Metadata obj) "phantom_jwt" ≠ EmptyString →
  ∃ o req',
    injectJwtPostKeyAuth obj w = Returned (o, None) w
    ∧ Request o = Some req'
    ∧ index (SetHeaders req') "Authorization"
      = "Bearer " +:+ index (Metadata obj) "phantom_jwt"
    ∧ (∀ k, k ≠ "Authorization" → index (SetHeaders req') k = index (SetHeaders req) k)
    ∧ Headers req' = Headers req
    ∧ ReturnOverrides_ req' = ReturnOverrides_ req
    ∧ Session o = Session obj
    ∧ Metadata o = Metadata obj
    ∧ HookName o = HookName obj.
Proof.
  unfold injectJwtPostKeyAuth, index. intros Hreq Hjwt. rewrite Hreq.
  destruct (Metadata obj) as [m|]; [|done].
  destruct (default EmptyString (m !! "phantom_jwt")) as [|c j] eqn:Hj; [done|].
  simpl. eexists _, _. split; [reflexivity|]. simpl. repeat split.
  - simpl. by rewrite lookup_insert_eq.
  - intros k Hk. simpl. rewrite lookup_insert_ne by done.
    destruct (SetHeaders req); simpl; [done|]. by rewrite lookup_empty.
Qed.

Lemma inject_sets_authorization_only_witness :
  ∃ o req',
    injectJwtPostKeyAuth object_for_inject world_empty = Returned (o, None) world_empty
    ∧ Request o = Some req'
    ∧ index (SetHeaders req') "Authorization" = "Bearer " +:+ token_exp_120.
Proof.
  destruct (inject_sets_authorization_only object_for_inject world_empty
              {| Headers := Some {[ "Authorization" := "Bearer OPAQUE1" ]};
                 SetHeaders := Some {[ "Authorization" := "Basic dTpw" ]};
                 ReturnOverrides_ := None |})
    as (o & req' & H1 & H2 & H3 & _).
  - reflexivity.
  - vm_compute. discriminate.
  - exists o, req'. repeat split; [exact H1 | exact H2 | exact H3].
Defined.

(** *** Samples for the statements above *)

Lemma Dispatch_returns_witness :
  ∃ o w',
    Dispatch ∅ clock_1700000000 (λ _, Responded response_token) object_for_inject world_empty
    = Returned (o, None) w'.
Proof.
  apply Dispatch_returns. vm_compute. eauto.
Defined.

Lemma parseJWTExp_success_witness :
  ∃ header payload signature decoded claims f,
    GoStrings.Split token_exp_120 "."%char = [header; payload; signature]
    ∧ base64.RawURLEncoding_DecodeString payload = Some decoded
    ∧ json.Unmarshal decoded = Some claims
    ∧ claims !! "exp" = Some (json.Float64 f)
    ∧ Unix 1700000120 = Unix (float64.to_int64 f).
Proof.
  apply parseJWTExp_success. vm_compute. reflexivity.
Defined.

(** ** More on bearer extraction *)

Section Bearer.

Local Open Scope nat_scope.

Lemma append_cons c a b : String c a +:+ b = String c (a +:+ b).
Proof. reflexivity. Qed.

Lemma append_nil b : EmptyString +:+ b = b.
Proof. reflexivity. Qed.

Lemma append_length a b :
  String.length (a +:+ b) = String.length a + String.length b.
Proof.
  induction a as [|c a IH]; [done|].
  rewrite append_cons. simpl. by rewrite IH.
Qed.

Lemma append_empty_r a : a +:+ EmptyString = a.
Proof. induction a as [|c a IH]; [done|]. by rewrite append_cons, IH. Qed.

Lemma append_assoc a b c : (a +:+ b) +:+ c = a +:+ (b +:+ c).
Proof. induction a as [|x a IH]; [done|]. by rewrite !append_cons, IH. Qed.

Lemma rev_app_append a : ∀ b, String.rev_app a b = String.rev a +:+ b.
Proof.
  unfold String.rev. induction a as [|c a IH]; intros b; [done|].
  simpl. rewrite (IH (String c b)), (IH (String c EmptyString)).
  by rewrite append_assoc.
Qed.

Lemma rev_cons c a : String.rev (String c a) = String.rev a +:+ String c EmptyString.
Proof. unfold String.rev. simpl. apply rev_app_append. Qed.

Lemma rev_append a b : String.rev (a +:+ b) = String.rev b +:+ String.rev a.
Proof.
  induction a as [|c a IH].
  - by rewrite append_nil, append_empty_r.
  - by rewrite append_cons, !rev_cons, IH, append_assoc.
Qed.

Lemma rev_involutive a : String.rev (String.rev a) = a.
Proof.
  induction a as [|c a IH]; [done|].
  by rewrite rev_cons, rev_append, IH.
Qed.

Lemma all_bytes_append p a b :
  all_bytes p (a +:+ b) = all_bytes p a && all_bytes p b.
Proof.
  induction a as [|c a IH]; [done|].
  rewrite append_cons. unfold all_bytes in *. simpl.
  rewrite IH. by rewrite andb_assoc.
Qed.

Lemma all_bytes_rev p a : all_bytes p (String.rev a) = all_bytes p a.
Proof.
  induction a as [|c a IH]; [done|].
  rewrite rev_cons, all_bytes_append, IH.
  unfold all_bytes. simpl. rewrite andb_true_r. apply andb_comm.
Qed.

Lemma substring_full s : String.substring 0 (String.length s) s = s.
Proof. induction s as [|c s IH]; simpl; [done|]. by rewrite IH. Qed.

Lemma between_all s : regexp.between s EmptyString = s.
Proof. unfold regexp.between. simpl. rewrite Nat.sub_0_r. apply substring_full. Qed.

(** *** The classes on the bytes of a header *)

Ltac by_cases c := destruct c as [[] [] [] [] [] [] [] []]; try discriminate; reflexivity.

Lemma blank_perl_space c : blank c = true → regexp.perl_space c = true.
Proof. by_cases c. Qed.

Lemma blank_not_newline c : blank c = true → regexp.any_but_newline c = true.
Proof. by_cases c. Qed.

Lemma visible_not_newline c : visible c = true → regexp.any_but_newline c = true.
Proof. by_cases c. Qed.

Lemma visible_not_space c : visible c = true → regexp.perl_space c = false.
Proof. by_cases c. Qed.

Lemma fold_B_not_space c :
  regexp.lit_matches true "B" c = true → regexp.perl_space c = false.
Proof. by_cases c. Qed.

Lemma strip_first_visible c s :
  visible c = true → GoStrings.strip_first GoStrings.space_encodings (String c s) = None.
Proof. by_cases c. Qed.

Lemma strip_first_rev_visible c s :
  visible c = true →
  GoStrings.strip_first (String.rev <$> GoStrings.space_encodings) (String c s) = None.
Proof. by_cases c. Qed.

Lemma strip_first_rev_blank c s :
  blank c = true →
  GoStrings.strip_first (String.rev <$> GoStrings.space_encodings) (String c s) = Some s.
Proof. by_cases c. Qed.

Lemma all_bytes_impl (p q : ascii → bool) s :
  (∀ c, p c = true → q c = true) → all_bytes p s = true → all_bytes q s = true.
Proof.
  intros Hpq. unfold all_bytes. induction s as [|c s IH]; [done|].
  simpl. intros [Hc Hs]%andb_true_iff. by rewrite (Hpq c Hc), IH.
Qed.

(** *** The matcher on a well-formed header *)

(** A greedy repetition over a run of bytes of the class, up to the end
    or a byte outside the class, goes on with what follows the run when
    the continuation succeeds there. *)
Lemma star_loop_run {R} cls (k : string → nat → option R) a : ∀ b pos r,
  all_bytes cls a = true →
  (∀ c b', b = String c b' → cls c = false) →
  k b (pos + String.length a) = Some r →
  regexp.star_loop cls k (a +:+ b) pos = Some r.
Proof.
  induction a as [|x a IH]; intros b pos r Hall Hstop Hk.
  - rewrite append_nil. simpl in Hk. rewrite Nat.add_0_r in Hk.
    destruct b as [|c b']; simpl; [done|].
    by rewrite (Hstop c b' eq_refl).
  - rewrite append_cons. unfold all_bytes in Hall. simpl in Hall.
    apply andb_true_iff in Hall as [Hx Hall]. simpl. rewrite Hx.
    rewrite (IH b (S pos) r); [done|done|done|].
    simpl in Hk. by rewrite Nat.add_succ_r in Hk.
Qed.

(** The literal of the pattern matches a scheme equal to it up to case. *)
Lemma run_literal w : ∀ prog scheme s pos opened caps,
  same_fold w scheme = true →
  regexp.run (regexp.literal true w ++ prog) (scheme +:+ s) pos opened caps
  = regexp.run prog s (pos + String.length scheme) opened caps.
Proof.
  induction w as [|x w IH]; intros prog scheme s pos opened caps Hfold.
  - destruct scheme; [|done]. rewrite append_nil. simpl. by rewrite Nat.add_0_r.
  - destruct scheme as [|y scheme]; [done|]. simpl in Hfold.
    apply andb_true_iff in Hfold as [Hxy Hfold].
    rewrite append_cons. unfold regexp.literal in *. simpl. rewrite Hxy.
    rewrite IH by done. simpl. by rewrite Nat.add_succ_r.
Qed.

(** Trimming a token followed by blanks gives the token. *)
Lemma trim_left_blanks fuel : ∀ a b,
  String.length a ≤ fuel →
  all_bytes blank a = true →
  (∀ c b', b = String c b' → visible c = true) →
  GoStrings.trim_left_fuel fuel (String.rev <$> GoStrings.space_encodings) (a +:+ b) = b.
Proof.
  induction fuel as [|fuel IH]; intros a b Hlen Hall Hb.
  - destruct a; [|simpl in Hlen; lia]. by rewrite append_nil.
  - destruct a as [|x a].
    + rewrite append_nil. cbn [GoStrings.trim_left_fuel].
      destruct b as [|c b']; [done|].
      by rewrite strip_first_rev_visible by eauto.
    + rewrite append_cons. unfold all_bytes in Hall. simpl in Hall.
      apply andb_true_iff in Hall as [Hx Hall].
      cbn [GoStrings.trim_left_fuel]. rewrite strip_first_rev_blank by done.
      apply IH; [simpl in Hlen; lia|done|done].
Qed.

Lemma TrimSpace_token t trail :
  all_bytes visible t = true → t ≠ EmptyString → all_bytes blank trail = true →
  GoStrings.TrimSpace (t +:+ trail) = t.
Proof.
  intros Ht Hne Htrail.
  unfold GoStrings.TrimSpace.
  assert (GoStrings.TrimLeftSpace (t +:+ trail) = t +:+ trail) as ->.
  { unfold GoStrings.TrimLeftSpace. destruct t as [|c t]; [done|].
    rewrite append_cons. cbn [String.length GoStrings.trim_left_fuel].
    rewrite strip_first_visible; [done|].
    unfold all_bytes in Ht. simpl in Ht. by apply andb_true_iff in Ht as [? _]. }
  unfold GoStrings.TrimRightSpace.
  rewrite rev_append, trim_left_blanks.
  - apply rev_involutive.
  - rewrite rev_length, append_length. lia.
  - by rewrite all_bytes_rev.
  - intros c b' Hrev.
    assert (all_bytes visible (String.rev t) = true) as Hv by by rewrite all_bytes_rev.
    rewrite Hrev in Hv. unfold all_bytes in Hv. simpl in Hv.
    by apply andb_true_iff in Hv as [? _].
Qed.

(** What the pattern finds in a well-formed header: the whole header,
    and in the group everything after the white space that follows the
    scheme. *)
Lemma bearerRe_match (lead scheme gap t trail : string) :
  all_bytes blank lead = true →
  same_fold "Bearer" scheme = true →
  all_bytes blank gap = true → gap ≠ EmptyString →
  all_bytes visible t = true → t ≠ EmptyString →
  all_bytes blank trail = true →
  let h := lead +:+ scheme +:+ gap +:+ t +:+ trail in
  is_empty h = false
  ∧ regexp.FindStringSubmatch bearerRe h = [h; t +:+ trail].
Proof.
  intros Hlead Hscheme Hgap Hgap1 Ht Ht1 Htrail h.
  assert (regexp.run bearerRe h 0 h [] = Some (EmptyString, [t +:+ trail])) as Hrun.
  { unfold bearerRe. generalize h at 2. intros whole. unfold h. cbn [app regexp.run].
    apply star_loop_run; [by apply (all_bytes_impl blank), Hlead; apply blank_perl_space| |].
    { intros c b' Hb. destruct scheme as [|y scheme]; [done|].
      rewrite append_cons in Hb. injection Hb as <- _.
      simpl in Hscheme. apply andb_true_iff in Hscheme as [Hy _].
      by apply fold_B_not_space. }
    cbv beta. rewrite run_literal by done.
    destruct gap as [|g gap]; [done|]. rewrite append_cons.
    unfold all_bytes in Hgap. simpl in Hgap. apply andb_true_iff in Hgap as [Hg Hgap].
    cbn [regexp.run]. rewrite (blank_perl_space g Hg).
    destruct t as [|c t]; [done|].
    assert (visible c = true ∧ all_bytes visible t = true) as [Hc Ht'].
    { unfold all_bytes in Ht. simpl in Ht. by apply andb_true_iff in Ht. }
    apply star_loop_run.
    { by apply (all_bytes_impl blank), Hgap; apply blank_perl_space. }
    { intros c' b' Hb. rewrite append_cons in Hb. injection Hb as <- _.
      by apply visible_not_space. }
    cbn [regexp.run]. rewrite append_cons. rewrite (visible_not_newline c Hc).
    rewrite <- (append_empty_r (t +:+ trail)).
    apply star_loop_run.
    { rewrite all_bytes_append. apply andb_true_iff. split.
      - by apply (all_bytes_impl visible), Ht'; apply visible_not_newline.
      - by apply (all_bytes_impl blank), Htrail; apply blank_not_newline. }
    { done. }
    cbn [regexp.run regexp.star_loop]. rewrite append_empty_r.
    by rewrite between_all. }
  split.
  - destruct h eqn:Hh; [|done].
    assert (String.length h = 0) as Hl by by rewrite Hh.
    unfold h in Hl. rewrite !append_length in Hl.
    destruct t; [done|]. simpl in Hl. lia.
  - unfold regexp.FindStringSubmatch.
    clearbody h. destruct h; cbn [regexp.search]; rewrite Hrun; cbn [rev app];
      by rewrite between_all.
Qed.

(** X25.  Bearer extraction on a well-formed header: for a token of
    visible ASCII bytes, the scheme in any mix of upper and lower case,
    one or more blanks after the scheme and any blanks before it and
    after the token, the extraction gives the token. *)
Theorem extractBearer_tolerant (lead scheme gap t trail : string) :
  all_bytes blank lead = true →
  same_fold "Bearer" scheme = true →
  all_bytes blank gap = true → gap ≠ EmptyString →
  all_bytes visible t = true → t ≠ EmptyString →
  all_bytes blank trail = true →
  extractBearer (lead +:+ scheme +:+ gap +:+ t +:+ trail) = t.
Proof.
  intros Hlead Hscheme Hgap Hgap1 Ht Ht1 Htrail.
  destruct (bearerRe_match lead scheme gap t trail) as [Hne Hfind]; try done.
  unfold extractBearer. rewrite Hne, Hfind. simpl.
  by apply TrimSpace_token.
Qed.

Lemma extractBearer_tolerant_witness :
  extractBearer ("  " +:+ "bEaReR" +:+ " " +:+ token_exp_120 +:+ " ") = token_exp_120.
Proof.
  apply extractBearer_tolerant; vm_compute; first [reflexivity | discriminate].
Defined.

(** X26.  The two phases fit: the header the inject hook writes for a
    JWT of visible ASCII bytes is a header bearer extraction reads the
    same JWT back from. *)
Theorem extractBearer_of_injected (jwt : string) :
  all_bytes visible jwt = true → jwt ≠ EmptyString →
  extractBearer ("Bearer " +:+ jwt) = jwt.
Proof.
  intros Hv Hne.
  destruct (bearerRe_match EmptyString "Bearer" " " jwt EmptyString) as [Hempty Hfind];
    try done.
  rewrite append_nil, append_empty_r in Hempty, Hfind.
  change ("Bearer" +:+ " " +:+ jwt) with ("Bearer " +:+ jwt) in Hempty, Hfind.
  unfold extractBearer. rewrite Hempty, Hfind. simpl.
  rewrite <- (append_empty_r jwt) at 1. by apply TrimSpace_token.
Qed.

Lemma extractBearer_of_injected_witness :
  extractBearer ("Bearer " +:+ token_exp_120) = token_exp_120.
Proof.
  apply extractBearer_of_injected; vm_compute; first [reflexivity | discriminate].
Defined.

(** *** Headers without the scheme *)

Lemma perl_space_not_B c :
  regexp.perl_space c = true → regexp.lit_matches true "B" c = false.
Proof. by_cases c. Qed.

(** The literal fails on a subject that does not start with it. *)
Lemma run_literal_fails w : ∀ prog s pos opened caps,
  starts_with_fold w s = false →
  regexp.run (regexp.literal true w ++ prog) s pos opened caps = None.
Proof.
  induction w as [|x w IH]; intros prog s pos opened caps H; [done|].
  destruct s as [|y s]; [done|]. cbn [starts_with_fold] in H.
  unfold regexp.literal in *.
  cbn [list_ascii_of_string fmap list_fmap app regexp.run].
  destruct (regexp.lit_matches true x y); [|done]. apply IH. exact H.
Qed.

(** The repetition over the leading white space fails when the
    continuation fails on white space and on what follows. *)
Lemma star_loop_fails {R} (k : string → nat → option R) rest : ∀ lead pos,
  all_bytes regexp.perl_space lead = true →
  (∀ c rest', rest = String c rest' → regexp.perl_space c = false) →
  (∀ x s pos', regexp.perl_space x = true → k (String x s) pos' = None) →
  (∀ pos', k rest pos' = None) →
  regexp.star_loop regexp.perl_space k (lead +:+ rest) pos = None.
Proof.
  induction lead as [|x lead IH]; intros pos Hall Hc Hk Hrest.
  - rewrite append_nil. destruct rest as [|c rest']; simpl; [done|].
    by rewrite (Hc c rest' eq_refl).
  - rewrite append_cons. unfold all_bytes in Hall. simpl in Hall.
    apply andb_true_iff in Hall as [Hx Hall]. simpl. rewrite Hx.
    rewrite IH by done. by apply Hk.
Qed.

(** The pattern is anchored: it matches at offset 0 or nowhere. *)
Lemma search_anchored s : ∀ pos, regexp.search bearerRe s (S pos) = None.
Proof.
  induction s as [|c s IH]; intros pos; [done|].
  cbn [regexp.search]. unfold bearerRe at 1. cbn [app regexp.run]. apply IH.
Qed.

Lemma search_at_start h :
  regexp.run bearerRe h 0 h [] = None → regexp.FindStringSubmatch bearerRe h = [].
Proof.
  intros H. unfold regexp.FindStringSubmatch.
  destruct h; cbn [regexp.search]; rewrite H; [done|]. by rewrite search_anchored.
Qed.

(** X27.  Another scheme is no bearer token: when what follows the
    leading white space of the header does not start with the word
    Bearer, in any mix of upper and lower case, the extraction gives the
    empty string. *)
Theorem extractBearer_other_scheme (lead rest : string) :
  all_bytes regexp.perl_space lead = true →
  (∀ c rest', rest = String c rest' → regexp.perl_space c = false) →
  starts_with_fold "Bearer" rest = false →
  extractBearer (lead +:+ rest) = EmptyString.
Proof.
  intros Hlead Hrest Hscheme. unfold extractBearer.
  destruct (is_empty (lead +:+ rest)); [done|].
  rewrite search_at_start; [done|].
  unfold bearerRe. generalize (lead +:+ rest) at 2. intros whole.
  cbn [app regexp.run].
  apply star_loop_fails; [done|done| |].
  - intros x s pos' Hx. apply run_literal_fails.
    cbn [starts_with_fold]. by rewrite perl_space_not_B.
  - intros pos'. by apply run_literal_fails.
Qed.

Lemma extractBearer_other_scheme_witness :
  extractBearer (" " +:+ "Basic dXNlcjpwdw==") = EmptyString.
Proof.
  apply extractBearer_other_scheme.
  - vm_compute. reflexivity.
  - intros c rest' [= <- _]. vm_compute. reflexivity.
  - vm_compute. reflexivity.
Defined.

End Bearer.
